(** * Alarmo keypad bridge: command correlation and state fan-out

    A shallow embedding of the server side of the keypad:
    - [api/alarm.js]: the [POST /api/alarm/updateAlarmState] route with its
      [responseTimeout] timer callback and [responseHandler] MQTT listener,
      and the helpers [mapEventToState] and [getErrorMessage];
    - [server.js]: the permanent MQTT ['message'] listener that maintains
      [app.locals.alarmState] and the Socket.IO ['connection'] handler;
    - [api/sensors.js]: the two routes that read Home Assistant's inventory;
    - [public/js/main.js]: the variables of the keypad page and the
      handlers that change them or call the server.

    Node runs every callback to completion on one thread, so one callback is
    one step of the model.  The request closure ([hasResponded], the timer,
    the registered listener, the response object) is an explicit record; the
    runtime calls a callback performs are listed, in source order, as
    [effect]s and then applied to that record and to the server's logs. *)

From Stdlib Require Import Strings.String Strings.Ascii NArith.
From stdpp Require Import base list.
Import ListNotations.
Local Open Scope string_scope.
Local Open Scope list_scope.

(** ** JSON values

    The result of [JSON.parse].  A number keeps its lexeme: the code below
    only echoes numbers, it never computes with them.  An object keeps its
    members in document order; a later member shadows an earlier one of the
    same name, as it does in the object [JSON.parse] builds. *)

#[warnings="-register-all"]
Inductive json : Type :=
| JNull
| JBool (b : bool)
| JNum (lexeme : string)
| JStr (s : string)
| JArr (items : list json)
| JObj (members : list (string * json)).

(** A JavaScript value read from a property: [None] is [undefined]. *)
Definition jsval : Type := option json.

(** [o[key]] for the members of a parsed object: the last member wins. *)
Fixpoint member (key : string) (members : list (string * json)) : jsval :=
  match members with
  | [] => None
  | (k, v) :: rest =>
      match member key rest with
      | Some w => Some w
      | None => if String.eqb k key then Some v else None
      end
  end.

(** [response.event].  Reading a property of [null] throws a [TypeError]
    ([None] here); on a primitive or an array the property is missing. *)
Definition get_event (response : json) : option jsval :=
  match response with
  | JNull => None
  | JObj members => Some (member "event" members)
  | JBool _ | JNum _ | JStr _ | JArr _ => Some None
  end.

(** ** A JSON reader

    [parse_json] reads one RFC 8259 document, [None] standing for the
    [SyntaxError] of [JSON.parse].  It is the decoder the concrete runs at
    the end of the file use; the route itself is stated over any decoder. *)

Module Reader.

Local Open Scope char_scope.
Local Open Scope N_scope.
Local Open Scope list_scope.

Definition is_ws (c : ascii) : bool :=
  match c with
  | " " | "009" | "010" | "013" => true
  | _ => false
  end.

Fixpoint skip_ws (l : list ascii) : list ascii :=
  match l with
  | c :: rest => if is_ws c then skip_ws rest else l
  | [] => []
  end.

Definition is_digit (c : ascii) : bool :=
  (48 <=? N_of_ascii c) && (N_of_ascii c <=? 57).

Definition hex_digit (c : ascii) : option N :=
  let n := N_of_ascii c in
  if (48 <=? n) && (n <=? 57) then Some (n - 48)
  else if (65 <=? n) && (n <=? 70) then Some (n - 55)
  else if (97 <=? n) && (n <=? 102) then Some (n - 87)
  else None.

Definition hex4 (a b c d : ascii) : option N :=
  match hex_digit a, hex_digit b, hex_digit c, hex_digit d with
  | Some x, Some y, Some z, Some w => Some (((x * 16 + y) * 16 + z) * 16 + w)
  | _, _, _, _ => None
  end.

(** The UTF-8 bytes of a code point (a lone surrogate gets the three-byte
    form). *)
Definition utf8 (cp : N) : list ascii :=
  if cp <? 128 then [ascii_of_N cp]
  else if cp <? 2048 then
    [ascii_of_N (192 + cp / 64); ascii_of_N (128 + cp mod 64)]
  else if cp <? 65536 then
    [ascii_of_N (224 + cp / 4096); ascii_of_N (128 + (cp / 64) mod 64);
     ascii_of_N (128 + cp mod 64)]
  else
    [ascii_of_N (240 + cp / 262144); ascii_of_N (128 + (cp / 4096) mod 64);
     ascii_of_N (128 + (cp / 64) mod 64); ascii_of_N (128 + cp mod 64)].

Definition is_high (u : N) : bool := (55296 <=? u) && (u <=? 56319).
Definition is_low (u : N) : bool := (56320 <=? u) && (u <=? 57343).

(** Flushes a pending high surrogate that was not followed by a low one. *)
Definition flush (pending : option N) : list ascii :=
  match pending with
  | Some h => utf8 h
  | None => []
  end.

(** The characters after an opening quote, up to the closing one.
    [pending] is a high surrogate read from the previous escape. *)
Fixpoint string_body (l : list ascii) (pending : option N)
  : option (list ascii * list ascii) :=
  match l with
  | [] => None
  | "034" :: rest => Some (flush pending, rest)
  | "\" :: "u" :: a :: b :: c :: d :: rest =>
      match hex4 a b c d with
      | None => None
      | Some u =>
          match pending with
          | Some h =>
              if is_low u then
                '(s, rest') ← string_body rest None;
                Some (utf8 (65536 + (h - 55296) * 1024 + (u - 56320)) ++ s, rest')
              else if is_high u then
                '(s, rest') ← string_body rest (Some u);
                Some (utf8 h ++ s, rest')
              else
                '(s, rest') ← string_body rest None;
                Some (utf8 h ++ utf8 u ++ s, rest')
          | None =>
              if is_high u then string_body rest (Some u)
              else
                '(s, rest') ← string_body rest None;
                Some (utf8 u ++ s, rest')
          end
      end
  | "\" :: e :: rest =>
      let plain (c : ascii) :=
        '(s, rest') ← string_body rest None;
        Some (flush pending ++ c :: s, rest') in
      match e with
      | "034" => plain "034"
      | "\" => plain "\"
      | "/" => plain "/"
      | "b" => plain "008"
      | "f" => plain "012"
      | "n" => plain "010"
      | "r" => plain "013"
      | "t" => plain "009"
      | _ => None
      end
  | c :: rest =>
      if N_of_ascii c <? 32 then None
      else
        '(s, rest') ← string_body rest None;
        Some (flush pending ++ c :: s, rest')
  end.

Fixpoint digits (l : list ascii) : list ascii * list ascii :=
  match l with
  | c :: rest =>
      if is_digit c then let '(ds, r) := digits rest in (c :: ds, r)
      else ([], l)
  | [] => ([], [])
  end.

(** [-? int frac? exp?], the lexeme and what follows it. *)
Definition number (l : list ascii) : option (list ascii * list ascii) :=
  let '(sign, l1) :=
    match l with "-" :: r => (["-"], r) | _ => ([], l) end in
  '(int, l2) ←
    match l1 with
    | "0" :: r => Some (["0"], r)
    | c :: _ =>
        if is_digit c then Some (digits l1) else None
    | [] => None
    end;
  '(frac, l3) ←
    match l2 with
    | "." :: r =>
        match digits r with
        | ([], _) => None
        | (ds, r') => Some ("." :: ds, r')
        end
    | _ => Some ([], l2)
    end;
  '(exp, l4) ←
    match l3 with
    | e :: r =>
        if (Ascii.eqb e "e" || Ascii.eqb e "E")%bool then
          let '(sg, r1) :=
            match r with
            | "+" :: r' => (["+"], r')
            | "-" :: r' => (["-"], r')
            | _ => ([], r)
            end in
          match digits r1 with
          | ([], _) => None
          | (ds, r') => Some (e :: sg ++ ds, r')
          end
        else Some ([], l3)
    | [] => Some ([], l3)
    end;
  Some (sign ++ int ++ frac ++ exp, l4).

Fixpoint value (fuel : nat) (l : list ascii) : option (json * list ascii) :=
  match fuel with
  | O => None
  | S fuel =>
      match skip_ws l with
      | "n" :: "u" :: "l" :: "l" :: rest => Some (JNull, rest)
      | "t" :: "r" :: "u" :: "e" :: rest => Some (JBool true, rest)
      | "f" :: "a" :: "l" :: "s" :: "e" :: rest => Some (JBool false, rest)
      | "034" :: rest =>
          '(s, rest') ← string_body rest None;
          Some (JStr (string_of_list_ascii s), rest')
      | "[" :: rest =>
          match skip_ws rest with
          | "]" :: rest' => Some (JArr [], rest')
          | _ => '(vs, rest') ← elements fuel rest; Some (JArr vs, rest')
          end
      | "{" :: rest =>
          match skip_ws rest with
          | "}" :: rest' => Some (JObj [], rest')
          | _ => '(ms, rest') ← members fuel rest; Some (JObj ms, rest')
          end
      | c :: _ =>
          if (is_digit c || Ascii.eqb c "-")%bool then
            '(lex, rest) ← number (skip_ws l);
            Some (JNum (string_of_list_ascii lex), rest)
          else None
      | [] => None
      end
  end
with elements (fuel : nat) (l : list ascii)
  : option (list json * list ascii) :=
  match fuel with
  | O => None
  | S fuel =>
      '(v, rest) ← value fuel l;
      match skip_ws rest with
      | "," :: rest' =>
          '(vs, rest'') ← elements fuel rest'; Some (v :: vs, rest'')
      | "]" :: rest' => Some ([v], rest')
      | _ => None
      end
  end
with members (fuel : nat) (l : list ascii)
  : option (list (string * json) * list ascii) :=
  match fuel with
  | O => None
  | S fuel =>
      match skip_ws l with
      | "034" :: rest =>
          '(k, rest1) ← string_body rest None;
          match skip_ws rest1 with
          | ":" :: rest2 =>
              '(v, rest3) ← value fuel rest2;
              let kv := (string_of_list_ascii k, v) in
              match skip_ws rest3 with
              | "," :: rest4 =>
                  '(ms, rest5) ← members fuel rest4; Some (kv :: ms, rest5)
              | "}" :: rest4 => Some ([kv], rest4)
              | _ => None
              end
          | _ => None
          end
      | _ => None
      end
  end.

End Reader.

(** The whole text must be one value between optional white space.  A
    level of nesting or an element of a sequence takes one unit of fuel and
    at least one character, so the fuel is taken from the length of the
    text. *)
Definition parse_json (text : string) : option json :=
  let l := list_ascii_of_string text in
  match Reader.value (2 * length l + 2) l with
  | Some (v, rest) =>
      match Reader.skip_ws rest with
      | [] => Some v
      | _ :: _ => None
      end
  | None => None
  end.

(** ** Replies, notifications and runtime calls *)

(** The object handed to [res.status(..).json(..)].  A property that is
    [undefined] is left out of the serialised body, hence the options. *)
Record reply : Type := Reply {
  success : bool;
  message : option string;
  event : jsval;
  state : option string
}.

(** What [io.emit] and [socket.emit] send, by event name:
    ['alarmStateChanged'], ['alarmUpdateTimeout'], ['alarmUpdateError']. *)
Inductive notification : Type :=
| alarmStateChanged (topic state timestamp : string)
| alarmUpdateTimeout (mode : option string)
| alarmUpdateError (error message : string).

(** The runtime calls made by the route and its two callbacks.  [Publish]
    carries the object that is given to [JSON.stringify]. *)
Inductive effect : Type :=
| SetTimeout (ms : nat)
| ClearTimeout
| On
| RemoveListener
| Publish (topic : string) (payload : json)
| IoEmit (n : notification)
| Respond (status : nat) (body : reply).

(** An object literal whose [undefined] properties are dropped, as
    [JSON.stringify] drops them. *)
Definition object_literal (props : list (string * option string)) : json :=
  JObj (omap (fun '(k, v) => match v with
                             | Some s => Some (k, JStr s)
                             | None => None
                             end) props).

(** The keypad sends [mode] and [code] as strings (main.js); a field that
    is missing from the body is [None].  [falsy v] is [!v] for such a
    field. *)
Definition falsy (v : option string) : bool :=
  match v with
  | None => true
  | Some s => String.eqb s ""
  end.

(** ** api/alarm.js *)

Definition mapEventToState (event : string) : string :=
  if String.eqb event "ARM_AWAY" then "armed_away"
  else if String.eqb event "ARM_HOME" then "armed_home"
  else if String.eqb event "ARM_NIGHT" then "armed_night"
  else if String.eqb event "ARM_VACATION" then "armed_vacation"
  else if String.eqb event "ARM_CUSTOM_BYPASS" then "armed_custom_bypass"
  else if String.eqb event "TRIGGER" then "triggered"
  else "unknown".

Definition getErrorMessage (event : string) : string :=
  if String.eqb event "FAILED_TO_ARM" then
    "Failed to arm the system. Please check if all sensors are closed."
  else if String.eqb event "COMMAND_NOT_ALLOWED" then
    "Command not allowed in the current state."
  else if String.eqb event "INVALID_CODE_PROVIDED" then
    "Invalid security code provided."
  else if String.eqb event "NO_CODE_PROVIDED" then
    "Security code is required for this operation."
  else "Failed to change the state of the alarm.".

(** The cases of [switch (response.event)], which compares with [===]:
    only a string can match a label. *)
Inductive event_case : Type :=
| Armed (e : string)
| Trigger
| Rejected (e : string)
| Default.

Definition is_arm_event (e : string) : bool :=
  String.eqb e "ARM_AWAY" || String.eqb e "ARM_HOME" || String.eqb e "ARM_NIGHT"
  || String.eqb e "ARM_VACATION" || String.eqb e "ARM_CUSTOM_BYPASS".

Definition is_rejection_event (e : string) : bool :=
  String.eqb e "FAILED_TO_ARM" || String.eqb e "COMMAND_NOT_ALLOWED"
  || String.eqb e "INVALID_CODE_PROVIDED" || String.eqb e "NO_CODE_PROVIDED".

Definition switch_event (ev : jsval) : event_case :=
  match ev with
  | Some (JStr e) =>
      if is_arm_event e then Armed e
      else if String.eqb e "TRIGGER" then Trigger
      else if is_rejection_event e then Rejected e
      else Default
  | _ => Default
  end.

(** A callback reads and writes the closure variable [hasResponded] and
    performs runtime calls: it maps the flag to the new flag and the calls,
    in the order the source makes them. *)
Definition callback : Type := bool -> bool * list effect.

Section Route.

(** [JSON.parse] of the runtime; [None] when it throws. *)
Variable JSON_parse : string -> option json.

(** [req.app.locals.io] is set. *)
Variable io : bool.

(** [if (io) { io.emit(..) }] *)
Definition io_emit (n : notification) : list effect :=
  if io then [IoEmit n] else [].

(** The function given to [setTimeout]. *)
Definition responseTimeout (mode : option string) : callback :=
  fun hasResponded =>
    if negb hasResponded then
      (true,
       [RemoveListener] ++ io_emit (alarmUpdateTimeout mode) ++
       [Respond 504 (Reply false
                       (Some "Timeout waiting for alarm system response")
                       (Some (JStr "TIMEOUT")) None)])
    else (hasResponded, []).

(** The [try] block of [responseHandler]: either it completes ([inl]) or an
    exception reaches the [catch] ([inr]), thrown by [JSON.parse] or by
    reading [response.event] of [null]. *)
Definition try_event (text : string) (hasResponded : bool)
  : (bool * list effect) + unit :=
  match JSON_parse text with
  | None => inr ()
  | Some response =>
      if negb hasResponded then
        match get_event response with
        | None => inr ()
        | Some ev =>
            inl
              match switch_event ev with
              | Armed e =>
                  (true, [ClearTimeout; RemoveListener;
                          Respond 200 (Reply true None ev
                                         (Some (mapEventToState e)))])
              | Trigger =>
                  (true, [ClearTimeout; RemoveListener;
                          Respond 200 (Reply true None ev (Some "triggered"))])
              | Rejected e =>
                  (true, [ClearTimeout; RemoveListener;
                          Respond 400 (Reply false (Some (getErrorMessage e))
                                         ev None)])
              | Default =>
                  (true, [ClearTimeout; RemoveListener;
                          Respond 400
                            (Reply false
                               (Some "Unrecognized alarm event received")
                               ev None)])
              end
        end
      else inl (hasResponded, [])
  end.

Definition catch_event (hasResponded : bool) : bool * list effect :=
  if negb hasResponded then
    (true,
     [ClearTimeout; RemoveListener] ++
     io_emit (alarmUpdateError "PARSE_ERROR"
                "Failed to parse alarm system response") ++
     [Respond 500 (Reply false (Some "Failed to parse alarm system response")
                     None None)])
  else (hasResponded, []).

(** [responseHandler(topic, message)], [text] being [message.toString()].
    The two [if (topic === ..)] blocks run one after the other. *)
Definition responseHandler (topic text : string) : callback :=
  fun hasResponded =>
    let '(responded1, calls1) :=
      if String.eqb topic "alarmo/event" then
        match try_event text hasResponded with
        | inl done => done
        | inr _ => catch_event hasResponded
        end
      else (hasResponded, []) in
    let '(responded2, calls2) :=
      if String.eqb topic "alarmo/state" then
        if String.eqb text "disarmed" then
          (true, [ClearTimeout; RemoveListener;
                  Respond 200 (Reply true None (Some (JStr "DISARMED"))
                                 (Some "disarmed"))])
        else (responded1, [])
      else (responded1, []) in
    (responded2, calls1 ++ calls2).

(** The body of [router.post('/updateAlarmState', ..)] for the request body
    [{mode, code}].  [publish_throws] tells whether [mqttClient.publish]
    throws. *)
Definition updateAlarmState (mode code : option string) (publish_throws : bool)
  : bool * list effect :=
  if falsy code then
    (false, [Respond 400 (Reply false (Some "Security code is required")
                            None None)])
  else
    let hasResponded := false in
    let setup := [SetTimeout 5000; On] in
    if publish_throws then
      (true,
       setup ++ [ClearTimeout; RemoveListener] ++
       io_emit (alarmUpdateError "MQTT_PUBLISH_ERROR"
                  "Failed to send command to alarm system") ++
       [Respond 500 (Reply false
                       (Some "Failed to send command to alarm system")
                       None None)])
    else
      (hasResponded,
       setup ++ [Publish "alarmo/command"
                   (object_literal [("command", mode); ("code", code)])]).

End Route.

(** ** The request closure *)

(** [responseTimeout]: not created yet, waiting, canceled by
    [clearTimeout], or elapsed (its callback has run). *)
Inductive timer_state : Type := NoTimer | Waiting | Canceled | Elapsed.

(** One call of the route: the request body, the closure variable, the
    timer, whether [responseHandler] is registered on the MQTT client, and
    every response written to [res]. *)
Record request : Type := Request {
  req_mode : option string;
  req_code : option string;
  hasResponded : bool;
  timer : timer_state;
  listening : bool;
  sent : list (nat * reply)
}.

Definition set_hasResponded (b : bool) (r : request) : request :=
  Request (req_mode r) (req_code r) b (timer r) (listening r) (sent r).

Definition set_timer (t : timer_state) (r : request) : request :=
  Request (req_mode r) (req_code r) (hasResponded r) t (listening r) (sent r).

Definition set_listening (b : bool) (r : request) : request :=
  Request (req_mode r) (req_code r) (hasResponded r) (timer r) b (sent r).

Definition add_sent (status : nat) (body : reply) (r : request) : request :=
  Request (req_mode r) (req_code r) (hasResponded r) (timer r) (listening r)
    (sent r ++ [(status, body)]).

(** What a runtime call does to the closure it is made from.
    [clearTimeout] only matters while the timer waits. *)
Definition request_effect (r : request) (e : effect) : request :=
  match e with
  | SetTimeout _ => set_timer Waiting r
  | ClearTimeout =>
      match timer r with
      | Waiting => set_timer Canceled r
      | _ => r
      end
  | On => set_listening true r
  | RemoveListener => set_listening false r
  | Respond status body => add_sent status body r
  | Publish _ _ | IoEmit _ => r
  end.

(** Runs a callback of the closure [r]. *)
Definition invoke (cb : callback) (r : request) : request * list effect :=
  let '(flag, calls) := cb (hasResponded r) in
  (fold_left request_effect calls (set_hasResponded flag r), calls).

Definition publishes (calls : list effect) : list (string * json) :=
  omap (fun e => match e with
                 | Publish t p => Some (t, p)
                 | _ => None
                 end) calls.

Definition emitted (calls : list effect) : list notification :=
  omap (fun e => match e with
                 | IoEmit n => Some n
                 | _ => None
                 end) calls.

(** ** The server *)

(** [app.locals.alarmState] ([None] while it is [undefined]), the connected
    Socket.IO clients, the closures of the route's calls in order of
    arrival, and two logs: what was published to the broker and what was
    delivered to which client. *)
Record server : Type := Server {
  alarmState : option string;
  sockets : list nat;
  requests : list request;
  published : list (string * json);
  delivered : list (nat * notification)
}.

Definition initial : server := Server None [] [] [] [].

(** [io.emit(n)]: one delivery to every connected client. *)
Definition broadcast (clients : list nat) (n : notification)
  : list (nat * notification) :=
  map (fun sid => (sid, n)) clients.

Definition broadcast_all (clients : list nat) (calls : list effect)
  : list (nat * notification) :=
  concat (map (broadcast clients) (emitted calls)).

(** [s.endsWith(suffix)] *)
Definition endsWith (s suffix : string) : bool :=
  (String.length suffix <=? String.length s)%nat
  && String.eqb
       (substring (String.length s - String.length suffix)
          (String.length suffix) s)
       suffix.

(** The test of the listener in server.js; [&&] binds tighter than [||]. *)
Definition isStateTopic (topic : string) : bool :=
  String.eqb topic "alarmo/state"
  || (String.prefix "alarmo/" topic && endsWith topic "/state").

(** What happens to the server, one callback at a time.  [now] is the value
    of [new Date().toISOString()] during that callback. *)
Inductive input : Type :=
| Post (mode code : option string) (publish_throws : bool)
| Message (topic text now : string)
| Elapse (i : nat)
| Connection (sid : nat) (now : string)
| Disconnect (sid : nat).

Section Server.

Variable JSON_parse : string -> option json.

(** server.js sets [app.locals.io], so the route always finds it. *)
Definition route_io : bool := true.

(** [router.post('/updateAlarmState')]: a new closure, its calls made. *)
Definition post (mode code : option string) (publish_throws : bool)
    (s : server) : server :=
  let '(flag, calls) := updateAlarmState route_io mode code publish_throws in
  let r :=
    fold_left request_effect calls
      (Request mode code flag NoTimer false []) in
  Server (alarmState s) (sockets s) (requests s ++ [r])
    (published s ++ publishes calls)
    (delivered s ++ broadcast_all (sockets s) calls).

(** [mqttClient.on('message', ..)] of server.js. *)
Definition stateListener (topic text now : string) (s : server) : server :=
  if isStateTopic topic then
    Server (Some text) (sockets s) (requests s) (published s)
      (delivered s ++ broadcast (sockets s) (alarmStateChanged topic text now))
  else s.

(** A request's [responseHandler] is called only while it is registered. *)
Definition hear (topic text : string) (r : request) : request * list effect :=
  if listening r then invoke (responseHandler JSON_parse route_io topic text) r
  else (r, []).

(** An MQTT message: the listener of server.js was registered first, then
    come the handlers of the requests, in order of registration. *)
Definition message_arrives (topic text now : string) (s : server) : server :=
  let s1 := stateListener topic text now s in
  let heard := map (hear topic text) (requests s1) in
  Server (alarmState s1) (sockets s1) (map fst heard) (published s1)
    (delivered s1 ++ concat (map (fun h => broadcast_all (sockets s1) (snd h))
                               heard)).

(** The timer of request [i] runs out; nothing happens unless it waits. *)
Definition elapse (i : nat) (s : server) : server :=
  match requests s !! i with
  | Some r =>
      match timer r with
      | Waiting =>
          let '(r', calls) :=
            invoke (responseTimeout route_io (req_mode r))
              (set_timer Elapsed r) in
          Server (alarmState s) (sockets s) (<[i := r']> (requests s))
            (published s) (delivered s ++ broadcast_all (sockets s) calls)
      | _ => s
      end
  | None => s
  end.

(** [io.on('connection', ..)] *)
Definition connection (sid : nat) (now : string) (s : server) : server :=
  Server (alarmState s) (sockets s ++ [sid]) (requests s) (published s)
    (delivered s ++
     match alarmState s with
     | Some v =>
         if falsy (Some v) then []
         else [(sid, alarmStateChanged "alarmo/state" v now)]
     | None => []
     end).

Definition disconnect (sid : nat) (s : server) : server :=
  Server (alarmState s) (filter (fun x => x ≠ sid) (sockets s)) (requests s)
    (published s) (delivered s).

Definition step (s : server) (i : input) : server :=
  match i with
  | Post mode code publish_throws => post mode code publish_throws s
  | Message topic text now => message_arrives topic text now s
  | Elapse i => elapse i s
  | Connection sid now => connection sid now s
  | Disconnect sid => disconnect sid s
  end.

Definition run (s : server) (inputs : list input) : server :=
  fold_left step inputs s.

End Server.

(** Whether a notification is an ['alarmStateChanged']. *)
Definition is_state_change (n : notification) : bool :=
  match n with
  | alarmStateChanged _ _ _ => true
  | _ => false
  end.

(** Inputs that bring no state-topic message and do not disconnect the
    client [sid]. *)
Definition quiet (sid : nat) (i : input) : bool :=
  match i with
  | Message topic _ _ => negb (isStateTopic topic)
  | Disconnect sid' => negb (Nat.eqb sid' sid)
  | _ => true
  end.

(** A request that has been published and waits for its reply. *)
Definition pending (r : request) : Prop :=
  hasResponded r = false ∧ timer r = Waiting ∧ listening r = true ∧ sent r = [].

(** A request that has been answered and has let go of its timer and its
    listener. *)
Definition settled (r : request) : Prop :=
  (∃ response, sent r = [response]) ∧ timer r ≠ Waiting ∧ listening r = false.

(** The calls of a settlement: the timer and the listener are released,
    observers may be told, one response is written. *)
Definition settling (calls : list effect) : Prop :=
  ∃ notes status body,
    calls = [ClearTimeout; RemoveListener] ++ map IoEmit notes
            ++ [Respond status body].

(** No callback of the route ever emits an ['alarmStateChanged']. *)
Definition no_state_change (calls : list effect) : Prop :=
  Forall (fun n => is_state_change n = false) (emitted calls).

(** ** Concrete inputs

    The texts and times used by the runs at the end of the file. *)

(** The double quote. *)
Definition dq : string := String (ascii_of_nat 34) EmptyString.

(** The payload [{"event":"<name>"}] of the event topic. *)
Definition event_payload (name : string) : string :=
  String.concat "" ["{"; dq; "event"; dq; ":"; dq; name; dq; "}"].

Definition noon : string := "2025-06-01T12:00:00.000Z".
Definition later : string := "2025-06-01T12:00:03.000Z".

(** One command published and waiting. *)
Definition one_pending (mode : string) : server :=
  run parse_json initial [Post (Some mode) (Some "1234") false].

(** Two commands of different modes published and waiting. *)
Definition two_pending : server :=
  run parse_json initial
    [Post (Some "arm_home") (Some "1234") false;
     Post (Some "arm_away") (Some "1234") false].

(** ** The rest of api/alarm.js *)

(** [router.get('/state')]: the [state] of the body,
    [req.app.locals.alarmState || 'unknown']. *)
Definition getState (s : server) : string :=
  match alarmState s with
  | Some v => if falsy (Some v) then "unknown" else v
  | None => "unknown"
  end.

(** ** Reading a list of inputs

    What a list of inputs says by itself, to compare the server with. *)

(** The text an input writes to the cache. *)
Definition state_text (i : input) : option string :=
  match i with
  | Message topic text _ => if isStateTopic topic then Some text else None
  | _ => None
  end.

(** The text of the last state-topic message. *)
Definition last_state_text (inputs : list input) : option string :=
  last (omap state_text inputs).

(** The command an input has the route publish. *)
Definition command_of (i : input) : option (string * json) :=
  match i with
  | Post mode code false =>
      if falsy code then None
      else Some ("alarmo/command",
                 object_literal [("command", mode); ("code", code)])
  | _ => None
  end.

(** A response as the keypad relies on it: [200] with [success], an event
    and a state that is not ['unknown']; or [400], [500], [504] without
    [success] and with a message that is not empty. *)
Definition coherent (response : nat * reply) : bool :=
  let '(status, body) := response in
  if Nat.eqb status 200 then
    success body
    && match message body, event body, state body with
       | None, Some (JStr e), Some st =>
           negb (String.eqb st "unknown")
           && (String.eqb st (mapEventToState e)
               || (String.eqb e "DISARMED" && String.eqb st "disarmed"))
       | _, _, _ => false
       end
  else
    (Nat.eqb status 400 || Nat.eqb status 500 || Nat.eqb status 504)
    && negb (success body)
    && match message body, state body with
       | Some m, None => negb (String.eqb m "")
       | _, _ => false
       end.

(** The responses among runtime calls. *)
Definition responses (calls : list effect) : list (nat * reply) :=
  omap (fun e => match e with
                 | Respond status body => Some (status, body)
                 | _ => None
                 end) calls.

Definition all_coherent (rs : list (nat * reply)) : Prop :=
  Forall (fun x => coherent x = true) rs.

Definition closures_coherent (s : server) : Prop :=
  Forall (fun r => all_coherent (sent r)) (requests s).

(** What a reply that cannot be read does to a closure: nothing unless it
    listens and has not answered. *)
Definition parse_failure : nat * reply :=
  (500, Reply false (Some "Failed to parse alarm system response") None None).

Definition parse_failure_note : notification :=
  alarmUpdateError "PARSE_ERROR" "Failed to parse alarm system response".

Definition awaits_reply (r : request) : bool :=
  listening r && negb (hasResponded r).

Definition failed_to_parse (r : request) : request :=
  if awaits_reply r then
    Request (req_mode r) (req_code r) true
      (match timer r with Waiting => Canceled | t => t end) false
      (sent r ++ [parse_failure])
  else r.

(** ** api/sensors.js *)

(** A state object of Home Assistant's [/states], with the properties the
    code reads.  The routes hand the objects on as they come. *)
Record entity : Type := Entity {
  entity_id : string;
  entity_state : string;
  attributes : list (string * json)
}.

(** [await axios.get(`${config.homeAssistant.apiUrl}/states`, ..)]: the
    array [response.data], or the [message] of the error thrown. *)
Inductive fetched : Type :=
| Fetched (data : list entity)
| FetchFailed (message : string).

(** What the routes of the file send. *)
Inductive sensors_body : Type :=
| SensorList (sensors : list entity)
| Entities (entities : list entity)
| SensorsError (error : string) (message : option string).

(** An [async] route: it answers at once, or it awaits Home Assistant and
    answers from what comes back. *)
Inductive handler (A : Type) : Type :=
| Answer (a : A)
| Await (k : fetched -> A).

Arguments Answer {A} a.
Arguments Await {A} k.

(** [ids.includes(id)] for a string [id] and the elements of a parsed
    array: only an equal string is the same value. *)
Definition includes_id (ids : list json) (id : string) : bool :=
  existsb (fun v => match v with
                    | JStr s => String.eqb s id
                    | _ => false
                    end) ids.

(** [foundIds.includes(id)] for an element [id] of the parsed array. *)
Definition found (foundIds : list string) (id : json) : bool :=
  match id with
  | JStr s => existsb (String.eqb s) foundIds
  | _ => false
  end.

(** [router.post('/getStates')] for the body field [entityIds]: the status,
    the body, and the ids that [console.warn] reports as not found. *)
Definition getStates (entityIds : jsval)
  : handler (nat * sensors_body * list json) :=
  match entityIds with
  | Some (JArr ids) =>
      match ids with
      | [] => Answer (200, Entities [], [])
      | _ :: _ =>
          Await (fun response =>
            match response with
            | Fetched data =>
                let entities :=
                  List.filter (fun e => includes_id ids (entity_id e)) data in
                let foundIds := map entity_id entities in
                let missingIds :=
                  List.filter (fun id => negb (found foundIds id)) ids in
                (200, Entities entities, missingIds)
            | FetchFailed message =>
                (500, SensorsError "Failed to fetch entity states"
                        (Some message), [])
            end)
      end
  | _ =>
      Answer (400,
              SensorsError
                "Invalid request. Expected entityIds array in request body."
                None, [])
  end.

(** [String(x)] for a configuration value that is a string or
    [undefined]. *)
Definition to_string (x : option string) : string :=
  match x with
  | Some s => s
  | None => "undefined"
  end.

Section Sensors.

(** [sensors.sort(..)] by friendly name with [localeCompare]; [None] when
    the comparison throws. *)
Variable sort_by_name : list entity -> option (list entity).

(** [router.get('/')], [sensorFilter] being [config.sensors.sensorFilter].
    [startsWith] turns its argument into a string. *)
Definition listSensors (sensorFilter : option string)
  : handler (nat * sensors_body) :=
  Await (fun response =>
    match response with
    | Fetched data =>
        let sensors :=
          List.filter
            (fun e => String.prefix (to_string sensorFilter) (entity_id e))
            data in
        match sort_by_name sensors with
        | Some sorted => (200, SensorList sorted)
        | None =>
            (500, SensorsError "Failed to fetch Konnected sensors" None)
        end
    | FetchFailed _ =>
        (500, SensorsError "Failed to fetch Konnected sensors" None)
    end).

End Sensors.

(** config.js gives [config.sensors] a [list] and a [refreshInterval], and
    no [sensorFilter]. *)
Definition config_sensorFilter : option string := None.

(** ** public/js/main.js: the keypad page

    The page's variables are a record, and what a function does to the
    page, the speaker and the network is a list of [ui] calls in source
    order.  A write to an element of the page stands for the guarded write
    of the source, which is skipped when the element is missing.  A key is
    the [data-key] text of the button touched. *)

Module Page.

Inductive arm_button : Type := arm_home | arm_away.

(** The mode an arm button passes to [handleArmButtonPress]. *)
Definition arm_mode (b : arm_button) : string :=
  match b with
  | arm_home => "arm_home"
  | arm_away => "arm_away"
  end.

Record keypad : Type := Keypad {
  currentCode : string;
  pinLength : nat;
  pendingArmMode : option string;
  initialStateLoaded : bool;
  currentAlarmState : option string;
  lastButtonState : option bool;
  (** [armButtonPressed.arm_home], [armButtonPressed.arm_away] *)
  pressed_home : bool;
  pressed_away : bool;
  (** whether the timeout kept in [armButtonTimer] is still to come *)
  timer_home : bool;
  timer_away : bool
}.

Inductive ui : Type :=
| playSound (type : string)
| playHapticFeedback (style : string)
| updatePinDisplay
| statusDetail (text : string)
| showNotification (message type : string) (duration : nat)
| playAlarmStateSound (state : string)
| showAlarmState (state : string)
| showArmButtons (visible : bool)
| overridePending (mode : string) (on : bool)
| armButtonWarning (on : bool)
| postUpdateAlarmState (mode code : string).

Definition set_code (code : string) (n : nat) (k : keypad) : keypad :=
  Keypad code n (pendingArmMode k) (initialStateLoaded k)
    (currentAlarmState k) (lastButtonState k) (pressed_home k)
    (pressed_away k) (timer_home k) (timer_away k).

Definition set_pending (mode : option string) (k : keypad) : keypad :=
  Keypad (currentCode k) (pinLength k) mode (initialStateLoaded k)
    (currentAlarmState k) (lastButtonState k) (pressed_home k)
    (pressed_away k) (timer_home k) (timer_away k).

Definition set_alarm_state (state : string) (k : keypad) : keypad :=
  Keypad (currentCode k) (pinLength k) (pendingArmMode k) true
    (Some state) (lastButtonState k) (pressed_home k)
    (pressed_away k) (timer_home k) (timer_away k).

Definition set_lastButtonState (b : bool) (k : keypad) : keypad :=
  Keypad (currentCode k) (pinLength k) (pendingArmMode k)
    (initialStateLoaded k) (currentAlarmState k) (Some b) (pressed_home k)
    (pressed_away k) (timer_home k) (timer_away k).

Definition pressed (b : arm_button) (k : keypad) : bool :=
  match b with
  | arm_home => pressed_home k
  | arm_away => pressed_away k
  end.

Definition waiting (b : arm_button) (k : keypad) : bool :=
  match b with
  | arm_home => timer_home k
  | arm_away => timer_away k
  end.

(** [armButtonPressed[mode] = p] together with setting ([p] true) or
    clearing ([p] false) the timeout of the button. *)
Definition set_pressed (b : arm_button) (p : bool) (k : keypad) : keypad :=
  match b with
  | arm_home =>
      Keypad (currentCode k) (pinLength k) (pendingArmMode k)
        (initialStateLoaded k) (currentAlarmState k) (lastButtonState k)
        p (pressed_away k) p (timer_away k)
  | arm_away =>
      Keypad (currentCode k) (pinLength k) (pendingArmMode k)
        (initialStateLoaded k) (currentAlarmState k) (lastButtonState k)
        (pressed_home k) p (timer_home k) p
  end.

(** [s.length], the number of UTF-16 units of a text kept as UTF-8 bytes:
    one for a byte that starts a character, none for a continuation byte,
    two for the first byte of a four-byte character. *)
Fixpoint js_length (s : string) : nat :=
  match s with
  | EmptyString => 0
  | String c rest =>
      let b := nat_of_ascii c in
      (if Nat.ltb b 128 then 1 else if Nat.ltb b 192 then 0
       else if Nat.ltb b 240 then 1 else 2) + js_length rest
  end.

Definition home_or_away (mode : string) : string :=
  if String.eqb mode "arm_home" then "Home" else "Away".

(** The part of [armSystem(mode, code)] that runs at once. *)
Definition armSystem (mode code : string) : list ui :=
  [statusDetail
     (String.concat "" ["Processing "; home_or_away mode; " Request..."]);
   playHapticFeedback "medium";
   postUpdateAlarmState mode code].

(** The part of [disarmWithCode(code)] that runs at once. *)
Definition disarmWithCode (code : string) : list ui :=
  [statusDetail "Processing Disarm Request...";
   postUpdateAlarmState "disarm" code].

Definition handleKeyPress (key : string) (k : keypad) : keypad * list ui :=
  let feedback := [playSound "keypad"; playHapticFeedback "light"] in
  if String.eqb key "clear" then
    (set_code "" 0 k, feedback ++ [updatePinDisplay])
  else if String.eqb key "enter" then
    let '(k1, requested) :=
      if negb (String.eqb (currentCode k) "") then
        match pendingArmMode k with
        | Some mode =>
            if falsy (Some mode) then (k, disarmWithCode (currentCode k))
            else (set_pending None k, armSystem mode (currentCode k))
        | None => (k, disarmWithCode (currentCode k))
        end
      else (k, []) in
    (set_code "" 0 k1,
     feedback ++ [playHapticFeedback "medium"] ++ requested
     ++ [updatePinDisplay])
  else if Nat.ltb (pinLength k) 4 then
    (set_code (String.append (currentCode k) key) (S (pinLength k)) k,
     feedback ++ [updatePinDisplay])
  else
    (k, feedback ++ [playSound "error"; playHapticFeedback "error"]).

(** [currentCode.length >= 4 ? currentCode : null] *)
Definition full_code (k : keypad) : option string :=
  if Nat.leb 4 (js_length (currentCode k)) then Some (currentCode k) else None.

(** [requestArmWithMode(mode, code)]; [hasOpenSensors] is what the page
    shows in its sensor container at that moment. *)
Definition requestArmWithMode (b : arm_button) (code : option string)
    (hasOpenSensors : bool) (k : keypad) : keypad * list ui :=
  let mode := arm_mode b in
  if hasOpenSensors && negb (pressed b k) then
    (set_pressed b true k,
     [showNotification
        "Warning: Sensors are open. Press again to override and arm anyway."
        "warning" 5000;
      overridePending mode true])
  else
    let '(k1, confirmed, code1) :=
      if hasOpenSensors then
        (set_pressed b false k,
         [overridePending mode false;
          showNotification "Arming with open sensors (override)" "info" 3000],
         if falsy code then full_code k else code)
      else (k, [], code) in
    match code1 with
    | Some c =>
        if falsy (Some c) then
          let k2 := set_pending (Some mode) k1 in
          let '(k3, cleared) :=
            if negb hasOpenSensors || negb (pressed b k2)
            then (set_code "" 0 k2, [updatePinDisplay]) else (k2, []) in
          (k3,
           confirmed ++ [playSound "keypad"; playHapticFeedback "light"]
           ++ cleared
           ++ [statusDetail
                 (String.append "Enter Code to Arm " (home_or_away mode))])
        else (k1, confirmed ++ armSystem mode c)
    | None =>
        let k2 := set_pending (Some mode) k1 in
        let '(k3, cleared) :=
          if negb hasOpenSensors || negb (pressed b k2)
          then (set_code "" 0 k2, [updatePinDisplay]) else (k2, []) in
        (k3,
         confirmed ++ [playSound "keypad"; playHapticFeedback "light"]
         ++ cleared
         ++ [statusDetail
               (String.append "Enter Code to Arm " (home_or_away mode))])
    end.

Definition handleArmButtonPress (b : arm_button) (hasOpenSensors : bool)
    (k : keypad) : keypad * list ui :=
  if hasOpenSensors && negb (pressed b k) then
    requestArmWithMode b (full_code k) hasOpenSensors k
  else if negb (String.eqb (currentCode k) "") && Nat.leb 4 (pinLength k) then
    let codeToUse := currentCode k in
    let '(k', calls) :=
      requestArmWithMode b (Some codeToUse) hasOpenSensors (set_code "" 0 k) in
    (k', updatePinDisplay :: calls)
  else requestArmWithMode b None hasOpenSensors k.

(** The function given to [setTimeout] on a first press; it runs only if
    the timeout was not cleared. *)
Definition armButtonTimeout (b : arm_button) (k : keypad) : keypad * list ui :=
  if waiting b k then
    (match b with
     | arm_home =>
         Keypad (currentCode k) (pinLength k) (pendingArmMode k)
           (initialStateLoaded k) (currentAlarmState k) (lastButtonState k)
           false (pressed_away k) false (timer_away k)
     | arm_away =>
         Keypad (currentCode k) (pinLength k) (pendingArmMode k)
           (initialStateLoaded k) (currentAlarmState k) (lastButtonState k)
           (pressed_home k) false (timer_home k) false
     end,
     [overridePending (arm_mode b) false])
  else (k, []).

Definition getErrorMessageForEvent (event : option string) : string :=
  match event with
  | Some e =>
      if String.eqb e "FAILED_TO_ARM" then
        "Failed to arm system. Check that all sensors are closed."
      else if String.eqb e "INVALID_CODE_PROVIDED" then
        "The security code you entered is incorrect."
      else if String.eqb e "NO_CODE_PROVIDED" then
        "Security code is required."
      else if String.eqb e "COMMAND_NOT_ALLOWED" then
        "This operation is not allowed right now."
      else "There was a problem updating the alarm system."
  | None => "There was a problem updating the alarm system."
  end.

Section WithButtons.

(** Whether the page has both arm buttons. *)
Variable arm_buttons : bool.

Definition updateArmButtonsState (state : string) (k : keypad)
  : keypad * list ui :=
  let '(k1, shown) :=
    if arm_buttons then
      let shouldShowButtons := String.eqb state "disarmed" in
      match lastButtonState k with
      | Some last =>
          if Bool.eqb last shouldShowButtons then (k, [])
          else (set_lastButtonState shouldShowButtons k,
                [showArmButtons shouldShowButtons])
      | None =>
          (set_lastButtonState shouldShowButtons k,
           [showArmButtons shouldShowButtons])
      end
    else (k, []) in
  (if String.eqb state "disarmed" then k1 else set_pending None k1, shown).

Definition updateAlarmState (state : string) (k : keypad)
  : keypad * list ui :=
  let '(k', shown) := updateArmButtonsState state k in
  (k', showAlarmState state :: shown).

(** [updateArmButtonsForOpenSensors(openSensorsPresent)] *)
Definition updateArmButtonsForOpenSensors (openSensorsPresent : bool)
    (k : keypad) : keypad * list ui :=
  if arm_buttons then
    if openSensorsPresent then (k, [armButtonWarning true])
    else
      (Keypad (currentCode k) (pinLength k) (pendingArmMode k)
         (initialStateLoaded k) (currentAlarmState k) (lastButtonState k)
         false false false false,
       [armButtonWarning false])
  else (k, []).

(** The handlers of [socket.on(..)] for what the server emits. *)
Definition notified (n : notification) (k : keypad) : keypad * list ui :=
  match n with
  | alarmStateChanged _ state _ =>
      let isActualStateChange :=
        match currentAlarmState k with
        | Some current => negb (String.eqb current state)
        | None => true
        end in
      let sound :=
        if initialStateLoaded k && isActualStateChange
        then [playAlarmStateSound state] else [] in
      let '(k', shown) :=
        updateAlarmState state (set_alarm_state state k) in
      (k', sound ++ shown)
  | alarmUpdateError _ message =>
      (set_pending None k,
       [showNotification
          (if String.eqb message "" then getErrorMessageForEvent None
           else message)
          "error" 3000;
        playHapticFeedback "error"; playSound "error"])
  | alarmUpdateTimeout _ =>
      (set_pending None k,
       [showNotification "The alarm system did not respond. Please try again."
          "warning" 3000;
        playHapticFeedback "error"; playSound "error"])
  end.

(** [socket.on('disconnect', ..)] *)
Definition disconnected (k : keypad) : keypad * list ui :=
  updateAlarmState "Unknown" k.

(** What can happen on the page, one handler at a time. *)
Inductive happening : Type :=
| Key (key : string)
| ArmButton (b : arm_button) (hasOpenSensors : bool)
| ArmButtonTimeout (b : arm_button)
| SensorsShown (openSensorsPresent : bool)
| Notified (n : notification)
| Disconnected.

Definition happen (h : happening) (k : keypad) : keypad * list ui :=
  match h with
  | Key key => handleKeyPress key k
  | ArmButton b hasOpenSensors => handleArmButtonPress b hasOpenSensors k
  | ArmButtonTimeout b => armButtonTimeout b k
  | SensorsShown openSensorsPresent =>
      updateArmButtonsForOpenSensors openSensorsPresent k
  | Notified n => notified n k
  | Disconnected => disconnected k
  end.

(** The page after a list of happenings, and all the calls made. *)
Fixpoint happenings (hs : list happening) (k : keypad) : keypad * list ui :=
  match hs with
  | [] => (k, [])
  | h :: rest =>
      let '(k1, calls1) := happen h k in
      let '(k2, calls2) := happenings rest k1 in
      (k2, calls1 ++ calls2)
  end.

(** The variables as the script sets them, after the
    [updateArmButtonsState('disarmed')] of [DOMContentLoaded]. *)
Definition loaded_page : keypad :=
  (updateArmButtonsState "disarmed"
     (Keypad "" 0 None false None None false false false false)).1.

End WithButtons.

(** The requests among the calls. *)
Definition posted (calls : list ui) : list (string * string) :=
  omap (fun c => match c with
                 | postUpdateAlarmState mode code => Some (mode, code)
                 | _ => None
                 end) calls.

(** [s.replace(pattern, replacement)] for a string pattern: the first
    occurrence only. *)
Fixpoint replace_first (pattern replacement s : string) : string :=
  if String.prefix pattern s then
    String.append replacement
      (substring (String.length pattern)
         (String.length s - String.length pattern) s)
  else
    match s with
    | EmptyString => EmptyString
    | String c rest => String c (replace_first pattern replacement rest)
    end.

(** How a [fetch] ends: with the status and body of a response, or
    rejected with an error of that message. *)
Inductive fetch_outcome : Type :=
| Responded (status : nat) (body : reply)
| NetworkFailure (message : string).

(** [response.ok] *)
Definition ok (status : nat) : bool :=
  Nat.leb 200 status && Nat.leb status 299.

(** [m || fallback] *)
Definition or_else (m : option string) (fallback : string) : string :=
  if falsy m then fallback else default fallback m.

(** The [.catch(..)] of both requests, [fallback] being its own default
    text. *)
Definition caught (message fallback : string) : list ui :=
  [playHapticFeedback "error"; playSound "error";
   showNotification (or_else (Some message) fallback) "error" 3000;
   statusDetail "System Ready"].

(** The [then] and [catch] of a request: [failed] is the text thrown for
    a response that is not ok and has no message, [unreachable] the default
    of the [catch], [succeeded] the text of the success notification. *)
Definition settled_request (failed unreachable succeeded : string)
    (outcome : fetch_outcome) : list ui :=
  match outcome with
  | Responded status body =>
      if ok status then
        if success body then
          [playHapticFeedback "success";
           showNotification succeeded "success" 3000]
        else
          [playHapticFeedback "error"; playSound "error";
           showNotification (or_else (message body) failed) "error" 3000]
      else caught (or_else (message body) failed) unreachable
  | NetworkFailure message => caught message unreachable
  end.

(** What [disarmWithCode] does when its request ends. *)
Definition disarmWithCode_settled : fetch_outcome -> list ui :=
  settled_request "Failed to disarm system" "Failed to disarm system"
    "System successfully disarmed".

(** What [armSystem(mode, ..)] does when its request ends. *)
Definition armSystem_settled (mode : string) : fetch_outcome -> list ui :=
  settled_request "Failed to update alarm system"
    "Failed to communicate with alarm system"
    (String.append "System successfully "
       (if String.eqb mode "disarm" then "disarmed"
        else String.concat ""
               ["armed in "; replace_first "arm_" "" mode; " mode"])).

(** The sounds of state changes among the calls. *)
Definition state_sounds (calls : list ui) : list string :=
  omap (fun c => match c with
                 | playAlarmStateSound state => Some state
                 | _ => None
                 end) calls.

End Page.

(** ** Reading a list of happenings *)

(** A key that is a digit of the code: neither [clear] nor [enter]. *)
Definition ordinary (key : string) : bool :=
  negb (String.eqb key "clear") && negb (String.eqb key "enter").

(** The keys of a code, one after the other. *)
Definition join (keys : list string) : string :=
  fold_right String.append "" keys.

(** The elements of a list that differ from the one before them. *)
Fixpoint changes (previous : string) (states : list string) : list string :=
  match states with
  | [] => []
  | s :: rest =>
      if String.eqb previous s then changes s rest
      else s :: changes s rest
  end.

(** A state notification, or [None] for a disconnection. *)
Definition connection_event (item : option string) : Page.happening :=
  match item with
  | Some state => Page.Notified (alarmStateChanged "alarmo/state" state noon)
  | None => Page.Disconnected
  end.

(** ** More concrete inputs *)

(** A waiting command as [one_pending] holds it. *)
Definition waiting_command (mode : string) : request :=
  Request (Some mode) (Some "1234") false Waiting true [].

(** A client connected, then one command published and waiting. *)
Definition watched_pending (mode : string) : server :=
  run parse_json initial
    [Connection 7 noon; Post (Some mode) (Some "1234") false].

(** A small inventory of Home Assistant. *)
Definition front_door : entity :=
  Entity "binary_sensor.front_door" "on" [("device_class", JStr "door")].

Definition hall_motion : entity :=
  Entity "binary_sensor.hall_motion" "off" [("device_class", JStr "motion")].

Definition porch_light : entity := Entity "light.porch" "on" [].

Definition inventory : list entity := [porch_light; front_door; hall_motion].

(** A page with nothing typed, whose arm buttons exist. *)
Definition fresh_page : Page.keypad := Page.loaded_page true.

(** A page on which four keys have been typed. *)
Definition typed_page : Page.keypad :=
  (Page.happenings true (map Page.Key ["4"; "7"; "1"; "1"]) fresh_page).1.

(** * Properties *)

(** Closes a goal about a closure that a step left as it was. *)
Ltac untouched := repeat split; auto; done.


(** ** The callbacks, one call at a time *)


Lemma io_emit_map io n : ∃ notes, io_emit io n = map IoEmit notes.
Proof. destruct io; [by exists [n] | by exists []]. Qed.

Lemma settling_plain status body :
  settling [ClearTimeout; RemoveListener; Respond status body].
Proof. by exists [], status, body. Qed.

Lemma settling_emit io n status body :
  settling ([ClearTimeout; RemoveListener] ++ io_emit io n
            ++ [Respond status body]).
Proof.
  destruct (io_emit_map io n) as [notes ->]. by exists notes, status, body.
Qed.

Lemma fold_emits notes r :
  fold_left request_effect (map IoEmit notes) r = r.
Proof. induction notes as [|n notes IH]; [done | apply IH]. Qed.

Section CallbackFacts.

Variable JSON_parse : string -> option json.
Variable io : bool.

(** While [hasResponded] is false a message either leaves the closure
    alone or settles it. *)
Lemma responseHandler_fresh topic text :
  responseHandler JSON_parse io topic text false = (false, [])
  ∨ ∃ calls, responseHandler JSON_parse io topic text false = (true, calls)
             ∧ settling calls.
Proof.
  unfold responseHandler.
  destruct (String.eqb topic "alarmo/event") eqn:Hevent.
  - apply String.eqb_eq in Hevent. subst topic. simpl. right.
    unfold try_event, catch_event. simpl.
    destruct (JSON_parse text) as [response|].
    + destruct (get_event response) as [ev|].
      * destruct (switch_event ev); eexists; rewrite app_nil_r;
          (split; [reflexivity | apply settling_plain]).
      * eexists. rewrite app_nil_r. split; [reflexivity | apply settling_emit].
    + eexists. rewrite app_nil_r. split; [reflexivity | apply settling_emit].
  - destruct (String.eqb topic "alarmo/state").
    + destruct (String.eqb text "disarmed").
      * right. eexists. split; [reflexivity | apply settling_plain].
      * by left.
    + by left.
Qed.

Lemma responseTimeout_fresh mode :
  ∃ notes status body,
    responseTimeout io mode false
    = (true, [RemoveListener] ++ map IoEmit notes ++ [Respond status body]).
Proof.
  unfold responseTimeout. simpl.
  destruct (io_emit_map io (alarmUpdateTimeout mode)) as [notes ->].
  by eexists notes, _, _.
Qed.

End CallbackFacts.

Lemma settling_settles calls r :
  settling calls → pending r →
  settled (fold_left request_effect calls (set_hasResponded true r)).
Proof.
  intros (notes & status & body & ->) (Hflag & Htimer & Hlisten & Hsent).
  destruct r as [m c flag t l out]. simpl in *. subst.
  change ([ClearTimeout; RemoveListener] ++ map IoEmit notes
          ++ [Respond status body])
    with (ClearTimeout :: RemoveListener :: (map IoEmit notes
          ++ [Respond status body])).
  cbn [fold_left]. rewrite fold_left_app, fold_emits. simpl.
  repeat split; [by eexists | done].
Qed.

Lemma set_hasResponded_same r : set_hasResponded (hasResponded r) r = r.
Proof. by destruct r. Qed.

(** ** The closures inside the server *)


Section ServerFacts.

Variable JSON_parse : string -> option json.

Lemma hear_settled topic text r :
  settled r → hear JSON_parse topic text r = (r, []).
Proof. intros (_ & _ & Hlisten). unfold hear. by rewrite Hlisten. Qed.

Lemma hear_pending topic text r :
  pending r →
  hear JSON_parse topic text r = (r, [])
  ∨ ∃ calls,
      hear JSON_parse topic text r
      = (fold_left request_effect calls (set_hasResponded true r), calls)
      ∧ settling calls.
Proof.
  intros Hp. pose proof Hp as (Hflag & _ & Hlisten & _).
  unfold hear, invoke. rewrite Hlisten, Hflag.
  destruct (responseHandler_fresh JSON_parse route_io topic text)
    as [-> | (calls & -> & Hcalls)].
  - left. simpl. by rewrite <- Hflag, set_hasResponded_same.
  - right. by exists calls.
Qed.

Lemma hear_invariant topic text r :
  pending r ∨ settled r →
  let r' := (hear JSON_parse topic text r).1 in
  (pending r' ∨ settled r') ∧ (settled r → r' = r)
  ∧ req_mode r' = req_mode r ∧ req_code r' = req_code r.
Proof.
  intros [Hp | Hs]; simpl.
  - destruct (hear_pending topic text r Hp) as [-> | (calls & -> & Hcalls)].
    + simpl. by eauto.
    + simpl. pose proof (settling_settles calls r Hcalls Hp) as Hs.
      split; [by right|]. split.
      * intros (_ & _ & Hl). destruct Hp as (_ & _ & Hl' & _). congruence.
      * destruct Hcalls as (notes & status & body & ->).
        destruct r as [m c flag t l out]. simpl.
        rewrite fold_left_app, fold_emits.
        destruct Hp as (_ & Ht & _). simpl in Ht. subst t. done.
  - rewrite (hear_settled topic text r Hs). simpl. by eauto.
Qed.

Lemma elapse_pending i s r :
  requests s !! i = Some r → pending r →
  ∃ r', requests (elapse i s) !! i = Some r' ∧ settled r'
        ∧ timer r' = Elapsed
        ∧ req_mode r' = req_mode r ∧ req_code r' = req_code r.
Proof.
  intros Hi (Hflag & Htimer & Hlisten & Hsent).
  unfold elapse. rewrite Hi, Htimer. unfold invoke.
  destruct r as [m c flag t l out]. simpl in *. subst.
  destruct (responseTimeout_fresh route_io m) as (notes & st & body & ->).
  simpl. rewrite list_lookup_insert_eq by (by eapply lookup_lt_Some).
  eexists. split; [reflexivity|].
  rewrite fold_left_app, fold_emits. simpl.
  repeat split; [by eexists | done].
Qed.

Lemma elapse_settled i s r :
  requests s !! i = Some r → settled r → elapse i s = s.
Proof.
  intros Hi (_ & Ht & _). unfold elapse. rewrite Hi.
  by destruct (timer r).
Qed.

Lemma elapse_other i j s :
  i ≠ j → requests (elapse j s) !! i = requests s !! i.
Proof.
  intros Hne. unfold elapse.
  destruct (requests s !! j) as [r|] eqn:Hj; [|done].
  destruct (timer r); try done.
  destruct (invoke _ _) as [r' calls]. simpl.
  by rewrite list_lookup_insert_ne.
Qed.

(** The closure a call of the route leaves behind. *)
Lemma post_lookup mode code publish_throws s :
  ∃ r, requests (post mode code publish_throws s) !! length (requests s)
       = Some r
       ∧ (pending r ∨ settled r)
       ∧ req_mode r = mode ∧ req_code r = code.
Proof.
  unfold post, updateAlarmState.
  destruct (falsy code); [|destruct publish_throws]; simpl;
    rewrite lookup_app_r, Nat.sub_diag by done; simpl;
    eexists; (split; [reflexivity|]); simpl.
  - split; [right | done]. repeat split; [by eexists | done].
  - split; [right | done]. repeat split; [by eexists | done].
  - split; [left | done]. done.
Qed.

(** A step keeps every closure in its place, never unsettles one and never
    touches a settled one. *)
Lemma step_invariant s e i r :
  requests s !! i = Some r → pending r ∨ settled r →
  ∃ r', requests (step JSON_parse s e) !! i = Some r'
        ∧ (pending r' ∨ settled r') ∧ (settled r → r' = r)
        ∧ req_mode r' = req_mode r ∧ req_code r' = req_code r.
Proof.
  intros Hi Hinv. destruct e as [m c pt | topic text now | j | sid now | sid];
    simpl.
  - exists r. split; [|by eauto].
    unfold post. destruct (updateAlarmState _ _ _ _). simpl.
    by apply lookup_app_l_Some.
  - exists (hear JSON_parse topic text r).1. split.
    + unfold message_arrives. simpl.
      assert (requests (stateListener topic text now s) = requests s) as ->
        by (unfold stateListener; by destruct (isStateTopic topic)).
      rewrite <- list_fmap_compose, list_lookup_fmap, Hi. done.
    + by apply hear_invariant.
  - destruct (decide (i = j)) as [<- | Hne].
    + destruct Hinv as [Hp | Hs].
      * destruct (elapse_pending i s r Hi Hp) as (r' & Hr' & Hs' & _ & Hm & Hc).
        exists r'. repeat split; try done; [by right|].
        intros (_ & Ht & _). by destruct Hp as (_ & Ht' & _).
      * rewrite (elapse_settled i s r Hi Hs). exists r. untouched.
    + exists r. rewrite elapse_other by done. untouched.
  - exists r. untouched.
  - exists r. untouched.
Qed.

Lemma run_invariant inputs s i r :
  requests s !! i = Some r → pending r ∨ settled r →
  ∃ r', requests (run JSON_parse s inputs) !! i = Some r'
        ∧ (pending r' ∨ settled r') ∧ (settled r → r' = r)
        ∧ req_mode r' = req_mode r ∧ req_code r' = req_code r.
Proof.
  revert s r. induction inputs as [|e inputs IH]; intros s r Hi Hinv.
  - exists r. by eauto.
  - destruct (step_invariant s e i r Hi Hinv) as (r1 & H1 & Hinv1 & Hs1 & Hm1 & Hc1).
    destruct (IH _ r1 H1 Hinv1) as (r2 & H2 & Hinv2 & Hs2 & Hm2 & Hc2).
    exists r2. simpl. repeat split; try done; try congruence.
    intros Hs. rewrite <- (Hs1 Hs). apply Hs2. by rewrite (Hs1 Hs).
Qed.

End ServerFacts.

(** ** Exactly one settlement per command *)

Lemma pending_or_settled_sent r :
  pending r ∨ settled r →
  length (sent r) ≤ 1 ∧ (sent r ≠ [] → settled r).
Proof.
  intros [(_ & _ & _ & Hsent) | Hs].
  - rewrite Hsent. simpl. split; [lia | done].
  - pose proof Hs as ((response & ->) & _). simpl. split; [lia | done].
Qed.

(** C1.  Take any history of the server, then one call of
    [POST /api/alarm/updateAlarmState] with any mode and code, then any
    further inputs.  The closure of that call is, at every moment, either
    pending (nothing sent, timer waiting, listener registered) or settled
    (exactly one response sent, timer no longer waiting, listener removed):
    never more than one response, and no listener or live timer is left once
    it has answered.  A settled closure is never touched again: its
    deadline, should it still come, changes nothing in the server, and no
    later input changes the closure.  And when the deadline of a call comes
    the call is settled, whatever else happens. *)
Theorem command_settles_exactly_once
    (JSON_parse : string → option json) (before : list input)
    (mode code : option string) (publish_throws : bool) (after : list input) :
  let s0 := run JSON_parse initial before in
  let i := length (requests s0) in
  let s := run JSON_parse s0 (Post mode code publish_throws :: after) in
  ∃ r, requests s !! i = Some r
       ∧ req_mode r = mode ∧ req_code r = code
       ∧ (pending r ∨ settled r)
       ∧ length (sent r) ≤ 1
       ∧ (sent r ≠ [] → timer r ≠ Waiting ∧ listening r = false)
       ∧ (settled r →
          elapse i s = s
          ∧ ∀ more, requests (run JSON_parse s more) !! i = Some r)
       ∧ (∀ more, ∃ r', requests (run JSON_parse s (Elapse i :: more)) !! i
                        = Some r'
                        ∧ settled r').
Proof.
  intros s0 i s.
  destruct (post_lookup mode code publish_throws s0)
    as (r0 & H0 & Hinv0 & Hm0 & Hc0).
  destruct (run_invariant JSON_parse after _ i r0 H0 Hinv0)
    as (r & Hr & Hinv & _ & Hm & Hc).
  fold i in H0. change (run JSON_parse (post mode code publish_throws s0) after)
    with s in Hr.
  exists r. split; [done|]. split; [congruence|]. split; [congruence|].
  split; [done|].
  destruct (pending_or_settled_sent r Hinv) as [Hlen Hne].
  split; [done|]. split.
  { intros Hsent. by destruct (Hne Hsent) as (_ & ? & ?). }
  split.
  - intros Hs. split; [by eapply elapse_settled|]. intros more.
    destruct (run_invariant JSON_parse more s i r Hr Hinv)
      as (r' & Hr' & _ & Hsame & _).
    by rewrite Hr', (Hsame Hs).
  - intros more.
    destruct (step_invariant JSON_parse s (Elapse i) i r Hr Hinv)
      as (r1 & Hr1 & Hinv1 & Hsame1 & _).
    assert (settled r1) as Hs1.
    { destruct Hinv as [Hp | Hs].
      - destruct (elapse_pending i s r Hr Hp) as (r2 & Hr2 & Hs2 & _).
        simpl in Hr1. congruence.
      - by rewrite (Hsame1 Hs). }
    destruct (run_invariant JSON_parse more _ i r1 Hr1 (or_intror Hs1))
      as (r' & Hr' & _ & Hsame & _).
    exists r'. split; [done|]. by rewrite (Hsame Hs1).
Qed.

(** ** Replies on the event topic and on the state topic *)

Section Replies.

Variable JSON_parse : string -> option json.

Lemma message_lookup s topic text now i r :
  requests s !! i = Some r →
  requests (step JSON_parse s (Message topic text now)) !! i
  = Some (hear JSON_parse topic text r).1.
Proof.
  intros Hi. simpl. unfold message_arrives. simpl.
  assert (requests (stateListener topic text now s) = requests s) as ->
    by (unfold stateListener; by destruct (isStateTopic topic)).
  by rewrite <- list_fmap_compose, list_lookup_fmap, Hi.
Qed.

(** What an event-topic message that decodes, and whose [event] can be
    read, does to a pending closure: the [try] block completes with one
    response, and that is the closure's settlement. *)
Lemma hear_event text response ev r :
  pending r → JSON_parse text = Some response → get_event response = Some ev →
  ∃ status body,
    try_event JSON_parse text false
    = inl (true, [ClearTimeout; RemoveListener; Respond status body])
    ∧ hear JSON_parse "alarmo/event" text r
      = (Request (req_mode r) (req_code r) true Canceled false
           [(status, body)],
         [ClearTimeout; RemoveListener; Respond status body]).
Proof.
  intros (Hflag & Htimer & Hlisten & Hsent) Hparse Hev.
  destruct r as [m c flag t l out]. simpl in *. subst.
  unfold hear, invoke, responseHandler, try_event. simpl.
  rewrite Hparse, Hev.
  destruct (switch_event ev); by eexists _, _.
Qed.

(** The same for a message on the state topic. *)
Lemma hear_state text r :
  pending r →
  hear JSON_parse "alarmo/state" text r
  = if String.eqb text "disarmed" then
      (Request (req_mode r) (req_code r) true Canceled false
         [(200, Reply true None (Some (JStr "DISARMED")) (Some "disarmed"))],
       [ClearTimeout; RemoveListener;
        Respond 200 (Reply true None (Some (JStr "DISARMED"))
                       (Some "disarmed"))])
    else (r, []).
Proof.
  intros (Hflag & Htimer & Hlisten & Hsent).
  destruct r as [m c flag t l out]. simpl in *. subst.
  unfold hear, invoke, responseHandler. simpl.
  by destruct (String.eqb text "disarmed").
Qed.

Lemma settled_after status body m c :
  settled (Request m c true Canceled false [(status, body)]).
Proof. repeat split; [by eexists | done]. Qed.

(** C3.  A pending command, whatever it asked for, that hears an event-topic
    message decoding to an object whose [event] is [ARM_AWAY], [ARM_HOME],
    [ARM_NIGHT], [ARM_VACATION], [ARM_CUSTOM_BYPASS] or [TRIGGER] is settled
    by it: the one response is [200 {success: true, event, state}] with the
    state paired with the event in the table below, the timer is canceled
    and the listener removed. *)
Theorem arming_event_settles_with_success
    (s : server) (i : nat) (r : request) (text now : string)
    (response : json) (e st : string) :
  requests s !! i = Some r → pending r →
  JSON_parse text = Some response →
  get_event response = Some (Some (JStr e)) →
  In (e, st) [("ARM_AWAY", "armed_away"); ("ARM_HOME", "armed_home");
              ("ARM_NIGHT", "armed_night");
              ("ARM_VACATION", "armed_vacation");
              ("ARM_CUSTOM_BYPASS", "armed_custom_bypass");
              ("TRIGGER", "triggered")] →
  ∃ r', requests (step JSON_parse s (Message "alarmo/event" text now)) !! i
        = Some r'
        ∧ settled r'
        ∧ sent r' = [(200, Reply true None (Some (JStr e)) (Some st))]
        ∧ timer r' = Canceled ∧ listening r' = false.
Proof.
  intros Hi Hp Hparse Hev Hin.
  rewrite (message_lookup s _ text now i r Hi).
  destruct (hear_event text response _ r Hp Hparse Hev)
    as (status & body & Htry & ->).
  eexists. split; [reflexivity|]. split; [apply settled_after|]. simpl.
  unfold try_event in Htry. rewrite Hparse, Hev in Htry. simpl in Htry.
  repeat (destruct Hin as [[= <- <-] | Hin];
          [simpl in Htry; by injection Htry as <- <- |]).
  destruct Hin.
Qed.

(** C9.  The handler is not given the mode of its request, and a reply on
    the event topic reaches every registered handler.  So when two
    different commands are pending, whatever their two modes, one arming or
    trigger event settles both with the same success response. *)
Theorem one_event_settles_concurrent_commands
    (s : server) (i j : nat) (ri rj : request) (text now : string)
    (response : json) (e : string) :
  i ≠ j →
  requests s !! i = Some ri → pending ri →
  requests s !! j = Some rj → pending rj →
  JSON_parse text = Some response →
  get_event response = Some (Some (JStr e)) →
  In e ["ARM_AWAY"; "ARM_HOME"; "ARM_NIGHT"; "ARM_VACATION";
        "ARM_CUSTOM_BYPASS"; "TRIGGER"] →
  let s' := step JSON_parse s (Message "alarmo/event" text now) in
  ∃ st ri' rj',
    requests s' !! i = Some ri' ∧ requests s' !! j = Some rj'
    ∧ req_mode ri' = req_mode ri ∧ req_mode rj' = req_mode rj
    ∧ settled ri' ∧ settled rj'
    ∧ sent ri' = [(200, Reply true None (Some (JStr e)) (Some st))]
    ∧ sent rj' = sent ri'.
Proof.
  intros Hne Hi Hpi Hj Hpj Hparse Hev Hin s'. subst s'.
  rewrite (message_lookup s _ text now i ri Hi).
  rewrite (message_lookup s _ text now j rj Hj).
  destruct (hear_event text response _ ri Hpi Hparse Hev)
    as (status & body & Htry & ->).
  destruct (hear_event text response _ rj Hpj Hparse Hev)
    as (status' & body' & Htry' & ->).
  rewrite Htry in Htry'. injection Htry' as <- <-.
  assert (∃ st, status = 200
                ∧ body = Reply true None (Some (JStr e)) (Some st))
    as (st & -> & ->).
  { unfold try_event in Htry. rewrite Hparse, Hev in Htry. simpl in Htry.
    repeat (destruct Hin as [<- | Hin];
            [simpl in Htry; injection Htry as <- <-; by eexists |]).
    destruct Hin. }
  exists st. eexists _, _. simpl.
  repeat split; try reflexivity; try done; by eexists.
Qed.

(** C4 as amended.  A pending command that hears an event-topic message
    which decodes to anything but [null] is settled with a [400] domain
    error that echoes the [event] read from the message: with the message
    of the table for the four rejection codes, and with
    ['Unrecognized alarm event received'] when [event] is none of the ten
    known codes.  A message that decodes to [null] is answered as a parse
    failure instead. *)
Theorem rejection_event_settles_with_domain_error
    (s : server) (i : nat) (r : request) (text now : string)
    (response : json) :
  requests s !! i = Some r → pending r →
  JSON_parse text = Some response →
  ∃ r', requests (step JSON_parse s (Message "alarmo/event" text now)) !! i
        = Some r'
        ∧ settled r'
        ∧ (∀ ev e m,
             get_event response = Some ev → ev = Some (JStr e) →
             In (e, m)
               [("FAILED_TO_ARM",
                 "Failed to arm the system. Please check if all sensors are closed.");
                ("COMMAND_NOT_ALLOWED",
                 "Command not allowed in the current state.");
                ("INVALID_CODE_PROVIDED", "Invalid security code provided.");
                ("NO_CODE_PROVIDED",
                 "Security code is required for this operation.")] →
             sent r' = [(400, Reply false (Some m) ev None)])
        ∧ (∀ ev,
             get_event response = Some ev →
             (∀ e, ev = Some (JStr e) →
                   ¬ In e ["ARM_AWAY"; "ARM_HOME"; "ARM_NIGHT"; "ARM_VACATION";
                           "ARM_CUSTOM_BYPASS"; "TRIGGER"; "FAILED_TO_ARM";
                           "COMMAND_NOT_ALLOWED"; "INVALID_CODE_PROVIDED";
                           "NO_CODE_PROVIDED"]) →
             sent r' = [(400, Reply false
                                (Some "Unrecognized alarm event received")
                                ev None)])
        ∧ (response = JNull →
           sent r' = [(500, Reply false
                              (Some "Failed to parse alarm system response")
                              None None)]).
Proof.
  intros Hi Hp Hparse.
  rewrite (message_lookup s _ text now i r Hi).
  eexists. split; [reflexivity|].
  destruct (get_event response) as [ev|] eqn:Hev.
  - destruct (hear_event text response _ r Hp Hparse Hev)
      as (status & body & Htry & ->).
    split; [apply settled_after|]. simpl.
    unfold try_event in Htry. rewrite Hparse, Hev in Htry. simpl in Htry.
    split; [|split].
    + intros ev' e m [= <-] -> Hin.
      repeat (destruct Hin as [[= <- <-] | Hin];
              [simpl in Htry; by injection Htry as <- <- |]).
      destruct Hin.
    + intros ev' [= <-] Hother.
      assert (switch_event ev = Default) as Hdefault.
      { destruct ev as [[| | |e| |]|]; try done. simpl.
        specialize (Hother e eq_refl). simpl in Hother.
        unfold is_arm_event, is_rejection_event.
        repeat match goal with
               | |- context [String.eqb e ?lit] =>
                   destruct (String.eqb_spec e lit);
                   [subst; exfalso; apply Hother;
                    repeat (first [left; reflexivity | right])|]
               end.
        done. }
      rewrite Hdefault in Htry. by injection Htry as <- <-.
    + intros ->. done.
  - destruct Hp as (Hflag & Htimer & Hlisten & Hsent).
    destruct r as [m c flag t l out]. simpl in *. subst.
    unfold hear, invoke, responseHandler, try_event, catch_event. simpl.
    rewrite Hparse, Hev. simpl.
    split; [repeat split; [by eexists | done]|].
    split; [done|]. split; [done|]. done.
Qed.

(** C2 as amended.  A pending command that hears ["disarmed"] on the state
    topic is settled with [200 {success: true, event: 'DISARMED', state:
    'disarmed'}] whatever its mode is; any other text on the state topic
    leaves it as it was. *)
Theorem disarmed_state_settles_any_mode
    (s : server) (i : nat) (r : request) (text now : string) :
  requests s !! i = Some r → pending r →
  ∃ r', requests (step JSON_parse s (Message "alarmo/state" text now)) !! i
        = Some r'
        ∧ req_mode r' = req_mode r
        ∧ (text = "disarmed" →
           settled r'
           ∧ sent r' = [(200, Reply true None (Some (JStr "DISARMED"))
                                (Some "disarmed"))]
           ∧ timer r' = Canceled ∧ listening r' = false)
        ∧ (text ≠ "disarmed" → r' = r).
Proof.
  intros Hi Hp.
  rewrite (message_lookup s _ text now i r Hi), (hear_state text r Hp).
  eexists. split; [reflexivity|].
  destruct (String.eqb_spec text "disarmed") as [-> | Hne]; simpl.
  - repeat split; try done. by eexists.
  - repeat split; try done.
Qed.

End Replies.

(** ** The route itself: validation and publish failure *)

(** C6.  With an empty code the route makes a single runtime call, the
    [400 {success: false, message: 'Security code is required'}] response:
    no [setTimeout], no listener, no publish.  In the server this adds a
    closure that is already answered, with no timer and no listener, and
    leaves the publish log, the deliveries and the cached state as they
    were.  The same holds when the code is missing from the body. *)
Theorem empty_code_is_refused_without_publish
    (io : bool) (mode : option string) (publish_throws : bool) (s : server) :
  let refusal :=
    (400, Reply false (Some "Security code is required") None None) in
  updateAlarmState io mode (Some "") publish_throws
  = (false, [Respond refusal.1 refusal.2])
  ∧ updateAlarmState io mode None publish_throws
    = (false, [Respond refusal.1 refusal.2])
  ∧ requests (post mode (Some "") publish_throws s)
    = requests s ++ [Request mode (Some "") false NoTimer false [refusal]]
  ∧ published (post mode (Some "") publish_throws s) = published s
  ∧ delivered (post mode (Some "") publish_throws s) = delivered s
  ∧ alarmState (post mode (Some "") publish_throws s) = alarmState s.
Proof.
  simpl. unfold post. simpl. unfold broadcast_all. simpl.
  by rewrite !app_nil_r.
Qed.

(** C7 as amended.  When [mqttClient.publish] throws, the route has already
    started the 5000 ms timer and registered the listener; it cancels the
    one and removes the other, tells the observers, and answers
    [500 {success: false, message}].  Nothing is published, the closure is
    settled with a canceled timer, and no later input (the deadline
    included) changes it. *)
Theorem publish_failure_settles_and_cancels_timer
    (JSON_parse : string → option json)
    (mode code : option string) (s : server) :
  falsy code = false →
  let failure :=
    (500, Reply false (Some "Failed to send command to alarm system")
            None None) in
  let note :=
    alarmUpdateError "MQTT_PUBLISH_ERROR"
      "Failed to send command to alarm system" in
  let s' := post mode code true s in
  let r := Request mode code true Canceled false [failure] in
  updateAlarmState route_io mode code true
  = (true, [SetTimeout 5000; On; ClearTimeout; RemoveListener; IoEmit note;
            Respond failure.1 failure.2])
  ∧ published s' = published s
  ∧ delivered s' = delivered s ++ broadcast (sockets s) note
  ∧ requests s' = requests s ++ [r]
  ∧ ∀ more, requests (run JSON_parse s' more) !! length (requests s) = Some r.
Proof.
  intros Hcode. simpl. unfold post, updateAlarmState. rewrite Hcode. simpl.
  unfold broadcast_all. simpl. rewrite !app_nil_r.
  repeat split; try done.
  intros more.
  set (r := Request mode code true Canceled false _).
  set (s' := Server _ _ _ _ _).
  assert (requests s' !! length (requests s) = Some r) as Hr.
  { subst s'. simpl. by rewrite lookup_app_r, Nat.sub_diag. }
  assert (settled r) as Hs by apply settled_after.
  destruct (run_invariant JSON_parse more s' _ r Hr (or_intror Hs))
    as (r' & Hr' & _ & Hsame & _).
  by rewrite Hr', (Hsame Hs).
Qed.

(** ** State fan-out *)


Lemma no_state_change_deliveries clients calls :
  no_state_change calls →
  Forall (fun d => is_state_change d.2 = false) (broadcast_all clients calls).
Proof.
  unfold no_state_change, broadcast_all.
  induction (emitted calls) as [|n notes IH]; intros Hall; simpl.
  - constructor.
  - inversion Hall as [|? ? Hn Hnotes]; subst.
    apply Forall_app. split; [|by apply IH].
    apply List.Forall_forall. intros d Hd.
    apply in_map_iff in Hd as (sid & <- & _). done.
Qed.

Lemma updateAlarmState_no_state_change io mode code publish_throws :
  no_state_change (updateAlarmState io mode code publish_throws).2.
Proof.
  unfold updateAlarmState, no_state_change.
  destruct (falsy code), publish_throws, io; simpl; repeat constructor.
Qed.

Lemma responseTimeout_no_state_change io mode flag :
  no_state_change (responseTimeout io mode flag).2.
Proof.
  unfold responseTimeout, no_state_change.
  destruct flag, io; simpl; repeat constructor.
Qed.

Lemma responseHandler_no_state_change JSON_parse io topic text flag :
  no_state_change (responseHandler JSON_parse io topic text flag).2.
Proof.
  unfold responseHandler, try_event, catch_event, no_state_change.
  destruct (String.eqb topic "alarmo/event"),
    (String.eqb topic "alarmo/state"), (String.eqb text "disarmed"),
    (JSON_parse text) as [response|], flag, io; simpl;
    try (destruct (get_event response) as [ev|]; simpl);
    try (destruct (switch_event ev); simpl);
    repeat constructor.
Qed.

(** Off the event topic the handler emits nothing at all. *)
Lemma responseHandler_silent JSON_parse io topic text flag :
  String.eqb topic "alarmo/event" = false →
  emitted (responseHandler JSON_parse io topic text flag).2 = [].
Proof.
  intros Hne. unfold responseHandler. rewrite Hne.
  by destruct (String.eqb topic "alarmo/state"),
       (String.eqb text "disarmed").
Qed.

Lemma state_topic_is_not_event_topic topic :
  isStateTopic topic = true → String.eqb topic "alarmo/event" = false.
Proof.
  intros Hstate. destruct (String.eqb_spec topic "alarmo/event") as [-> |];
    [discriminate Hstate | done].
Qed.

Section FanOut.

Variable JSON_parse : string -> option json.

Lemma hear_no_state_change topic text r :
  no_state_change (hear JSON_parse topic text r).2.
Proof.
  unfold hear. destruct (listening r); [|constructor].
  unfold invoke.
  pose proof (responseHandler_no_state_change JSON_parse route_io topic text
                (hasResponded r)) as H.
  by destruct (responseHandler _ _ _ _ _).
Qed.

Lemma hear_silent topic text r :
  String.eqb topic "alarmo/event" = false →
  emitted (hear JSON_parse topic text r).2 = [].
Proof.
  intros Hne. unfold hear. destruct (listening r); [|done].
  unfold invoke.
  pose proof (responseHandler_silent JSON_parse route_io topic text
                (hasResponded r) Hne) as H.
  by destruct (responseHandler _ _ _ _ _).
Qed.

Lemma heard_deliveries clients topic text rs :
  Forall (fun d => is_state_change d.2 = false)
    (concat (map (fun h => broadcast_all clients h.2)
               (map (hear JSON_parse topic text) rs))).
Proof.
  induction rs as [|r rs IH]; simpl; [constructor|].
  apply Forall_app. split; [|done].
  apply no_state_change_deliveries, hear_no_state_change.
Qed.

Lemma heard_silent clients topic text rs :
  String.eqb topic "alarmo/event" = false →
  concat (map (fun h => broadcast_all clients h.2)
            (map (hear JSON_parse topic text) rs)) = [].
Proof.
  intros Hne. induction rs as [|r rs IH]; simpl; [done|].
  rewrite IH, app_nil_r. unfold broadcast_all.
  by rewrite (hear_silent topic text r Hne).
Qed.

Lemma state_message_step s topic text now :
  isStateTopic topic = true →
  step JSON_parse s (Message topic text now)
  = Server (Some text) (sockets s)
      (map (fun r => (hear JSON_parse topic text r).1) (requests s))
      (published s)
      (delivered s ++ broadcast (sockets s) (alarmStateChanged topic text now)).
Proof.
  intros Hstate. simpl. unfold message_arrives, stateListener.
  rewrite Hstate. simpl.
  rewrite heard_silent by by apply state_topic_is_not_event_topic.
  by rewrite app_nil_r, <- list_fmap_compose.
Qed.

(** C10.  A message on a state topic, whatever its text, becomes the cached
    state as it is, and every connected client is sent exactly one
    ['alarmStateChanged'] carrying that topic, that text and the time of the
    callback; nothing else is delivered, and no text is rejected. *)
Theorem state_message_is_forwarded_verbatim
    (s : server) (topic text now : string) :
  isStateTopic topic = true →
  let s' := step JSON_parse s (Message topic text now) in
  alarmState s' = Some text
  ∧ sockets s' = sockets s
  ∧ delivered s'
    = delivered s
      ++ map (fun sid => (sid, alarmStateChanged topic text now)) (sockets s).
Proof.
  intros Hstate s'. subst s'. by rewrite state_message_step.
Qed.

(** While no state-topic message arrives, an empty cache stays empty, no
    ['alarmStateChanged'] is delivered to anyone, and a connected client
    that does not disconnect stays connected. *)
Lemma quiet_step sid s e :
  falsy (alarmState s) = true → quiet sid e = true →
  let s' := step JSON_parse s e in
  falsy (alarmState s') = true
  ∧ (sid ∈ sockets s → sid ∈ sockets s')
  ∧ ∃ extra, delivered s' = delivered s ++ extra
             ∧ Forall (fun d => is_state_change d.2 = false) extra.
Proof.
  intros Hempty Hquiet.
  destruct e as [m c pt | topic text now | j | sid' now | sid']; simpl.
  - unfold post.
    pose proof (updateAlarmState_no_state_change route_io m c pt) as Hcalls.
    destruct (updateAlarmState route_io m c pt) as [flag calls]. simpl.
    repeat split; try done.
    eexists. split; [done|]. by apply no_state_change_deliveries.
  - simpl in Hquiet. apply negb_true_iff in Hquiet.
    unfold message_arrives, stateListener. rewrite Hquiet. simpl.
    repeat split; try done.
    eexists. split; [done|]. apply heard_deliveries.
  - unfold elapse. destruct (requests s !! j) as [r|];
      [|by repeat split; try done; exists []; rewrite app_nil_r].
    destruct (timer r);
      try (by repeat split; try done; exists []; rewrite app_nil_r).
    unfold invoke.
    pose proof (responseTimeout_no_state_change route_io (req_mode r)
                  (hasResponded (set_timer Elapsed r))) as Hcalls.
    destruct (responseTimeout _ _ _) as [flag calls]. simpl.
    repeat split; try done.
    eexists. split; [done|]. by apply no_state_change_deliveries.
  - unfold connection. simpl. repeat split; try done.
    + intros Hin. apply elem_of_app. by left.
    + eexists. split; [done|].
      destruct (alarmState s) as [v|]; [|constructor].
      simpl in Hempty. simpl. rewrite Hempty. constructor.
  - unfold disconnect. simpl. repeat split; try done.
    + intros Hin. apply list_elem_of_filter. split; [|done].
      simpl in Hquiet. apply negb_true_iff, Nat.eqb_neq in Hquiet. congruence.
    + exists []. by rewrite app_nil_r.
Qed.

Lemma quiet_run sid inputs s :
  falsy (alarmState s) = true → forallb (quiet sid) inputs = true →
  let s' := run JSON_parse s inputs in
  falsy (alarmState s') = true
  ∧ (sid ∈ sockets s → sid ∈ sockets s')
  ∧ ∃ extra, delivered s' = delivered s ++ extra
             ∧ Forall (fun d => is_state_change d.2 = false) extra.
Proof.
  revert s. induction inputs as [|e inputs IH]; intros s Hempty Hquiet; simpl.
  - repeat split; try done. exists []. by rewrite app_nil_r.
  - simpl in Hquiet. apply andb_true_iff in Hquiet as [He Hrest].
    destruct (quiet_step sid s e Hempty He) as (Hempty1 & Hin1 & x1 & Hx1 & Hall1).
    destruct (IH _ Hempty1 Hrest) as (Hempty2 & Hin2 & x2 & Hx2 & Hall2).
    repeat split; [done | by auto |].
    exists (x1 ++ x2). split.
    + unfold run in *. simpl. rewrite Hx2, Hx1. by rewrite app_assoc.
    + by apply Forall_app.
Qed.

(** C8 as amended.  A client that connects while the cache holds a
    non-empty text [v] is sent, at once, one
    ['alarmStateChanged' {topic: 'alarmo/state', state: v, timestamp}], and
    that is the only delivery of the step: no other client is sent
    anything.  A client that connects while the cache is [undefined] or
    holds the empty text is sent nothing on connecting, and no
    ['alarmStateChanged'] is delivered to anyone for as long as no
    state-topic message arrives; the first such message then reaches it,
    provided it is still connected. *)
Theorem new_observer_gets_cached_state_once
    (s : server) (sid : nat) (now : string) :
  (∀ v, alarmState s = Some v → v ≠ "" →
        delivered (step JSON_parse s (Connection sid now))
        = delivered s ++ [(sid, alarmStateChanged "alarmo/state" v now)])
  ∧ (falsy (alarmState s) = true →
     delivered (step JSON_parse s (Connection sid now)) = delivered s
     ∧ ∀ inputs topic text now',
         forallb (quiet sid) inputs = true → isStateTopic topic = true →
         let s1 := run JSON_parse (step JSON_parse s (Connection sid now))
                     inputs in
         (∃ extra, delivered s1 = delivered s ++ extra
                   ∧ Forall (fun d => is_state_change d.2 = false) extra)
         ∧ In (sid, alarmStateChanged topic text now')
             (delivered (step JSON_parse s1 (Message topic text now')))).
Proof.
  split.
  - intros v Hv Hne. simpl. unfold connection. rewrite Hv. simpl.
    by destruct (String.eqb_spec v "").
  - intros Hempty.
    assert (delivered (step JSON_parse s (Connection sid now)) = delivered s)
      as Hconn.
    { simpl. unfold connection. simpl.
      destruct (alarmState s) as [v|]; simpl in *;
        [rewrite Hempty|]; by rewrite app_nil_r. }
    split; [done|].
    intros inputs topic text now' Hquiet Hstate s1.
    assert (falsy (alarmState (step JSON_parse s (Connection sid now))) = true)
      as Hempty' by done.
    destruct (quiet_run sid inputs _ Hempty' Hquiet)
      as (_ & Hin & extra & Hextra & Hall).
    fold s1 in Hin, Hextra. rewrite Hconn in Hextra.
    split; [by exists extra|].
    rewrite state_message_step by done. simpl.
    apply in_or_app. right. apply in_map_iff. exists sid. split; [done|].
    apply list_elem_of_In, Hin. simpl. apply elem_of_app. right.
    by apply list_elem_of_singleton.
Qed.

End FanOut.

(** ** Failures and the observers *)

Section Failures.

Variable JSON_parse : string -> option json.

(** A deadline that runs out is told to every connected client. *)
Lemma timeout_reaches_observers s i r :
  requests s !! i = Some r → pending r →
  delivered (elapse i s)
  = delivered s ++ broadcast (sockets s) (alarmUpdateTimeout (req_mode r))
  ∧ ∃ r', requests (elapse i s) !! i = Some r'
          ∧ sent r' = [(504, Reply false
                               (Some "Timeout waiting for alarm system response")
                               (Some (JStr "TIMEOUT")) None)].
Proof.
  intros Hi (Hflag & Htimer & Hlisten & Hsent).
  unfold elapse. rewrite Hi, Htimer. unfold invoke.
  destruct r as [m c flag t l out]. simpl in *. subst. simpl.
  unfold broadcast_all. simpl. rewrite app_nil_r. split; [done|].
  rewrite list_lookup_insert_eq by (by eapply lookup_lt_Some). by eexists.
Qed.

(** A reply on the event topic whose [event] can be read is told to no
    client, whatever the answer to the caller is: the [switch] has no
    [io.emit]. *)
Lemma event_reply_reaches_no_observer s text response ev now :
  JSON_parse text = Some response → get_event response = Some ev →
  delivered (step JSON_parse s (Message "alarmo/event" text now))
  = delivered s.
Proof.
  intros Hparse Hev. simpl. unfold message_arrives.
  change (stateListener "alarmo/event" text now s) with s. simpl.
  transitivity (delivered s ++ []); [f_equal | apply app_nil_r].
  induction (requests s) as [|r rs IH]; simpl; [done|].
  rewrite IH, app_nil_r.
  unfold hear. destruct (listening r); [|done].
  unfold invoke, responseHandler, try_event. simpl.
  rewrite Hparse, Hev.
  destruct (hasResponded r); simpl; [done|].
  by destruct (switch_event ev).
Qed.

End Failures.

(** C5.  One client is connected, [arm_away] is asked with a wrong code and
    the controller answers [INVALID_CODE_PROVIDED]: the caller gets the
    [400] rejection and the connected client gets nothing, no
    ['alarmUpdateError'] is emitted for it. *)
Theorem rejection_is_not_broadcast :
  let s :=
    run parse_json initial
      [Connection 7 noon;
       Post (Some "arm_away") (Some "0000") false;
       Message "alarmo/event" (event_payload "INVALID_CODE_PROVIDED") later] in
  sockets s = [7]
  ∧ requests s
    = [Request (Some "arm_away") (Some "0000") true Canceled false
         [(400, Reply false (Some "Invalid security code provided.")
                  (Some (JStr "INVALID_CODE_PROVIDED")) None)]]
  ∧ delivered s = [].
Proof. vm_compute. done. Qed.

(** ** Concrete runs *)

Example the_deadline_settles_a_silent_command :
  let s :=
    run parse_json initial
      [Connection 7 noon; Post (Some "arm_home") (Some "1234") false;
       Elapse 0; Message "alarmo/state" "disarmed" later; Elapse 0] in
  requests s
  = [Request (Some "arm_home") (Some "1234") true Elapsed false
       [(504, Reply false (Some "Timeout waiting for alarm system response")
                (Some (JStr "TIMEOUT")) None)]]
  ∧ delivered s
    = [(7, alarmUpdateTimeout (Some "arm_home"));
       (7, alarmStateChanged "alarmo/state" "disarmed" later)]
  ∧ published s
    = [("alarmo/command",
        JObj [("command", JStr "arm_home"); ("code", JStr "1234")])].
Proof. vm_compute. done. Qed.

(** The state-topic branch of the handler does not test [hasResponded]:
    called on an answered closure it would answer again.  The server never
    makes that call, because every settlement removes the listener. *)
Remark state_branch_is_unguarded :
  responseHandler parse_json true "alarmo/state" "disarmed" true
  = (true, [ClearTimeout; RemoveListener;
            Respond 200 (Reply true None (Some (JStr "DISARMED"))
                           (Some "disarmed"))]).
Proof. reflexivity. Qed.

(** C2, as stated, fails: a pending [arm_home] command is settled with
    success by ["disarmed"] on the state topic. *)
Lemma disarmed_settles_arm_home :
  ∃ r r',
    requests (one_pending "arm_home") !! 0 = Some r
    ∧ pending r ∧ req_mode r = Some "arm_home"
    ∧ requests (step parse_json (one_pending "arm_home")
                  (Message "alarmo/state" "disarmed" noon)) !! 0 = Some r'
    ∧ settled r'
    ∧ sent r' = [(200, Reply true None (Some (JStr "DISARMED"))
                         (Some "disarmed"))].
Proof.
  eexists _, _. split; [reflexivity|]. split; [done|]. split; [done|].
  split; [vm_compute; reflexivity|]. split; [|done].
  repeat split; [by eexists | done].
Qed.

(** C4, as stated, fails: the text [null] is JSON, and a pending command
    that hears it on the event topic is answered with the [500] parse
    failure, not with the unrecognized-event error. *)
Lemma null_reply_is_a_parse_failure :
  parse_json "null" = Some JNull
  ∧ requests (step parse_json (one_pending "arm_away")
                (Message "alarmo/event" "null" noon))
    = [Request (Some "arm_away") (Some "1234") true Canceled false
         [(500, Reply false (Some "Failed to parse alarm system response")
                  None None)]].
Proof. vm_compute. done. Qed.

(** Replies that are JSON but carry none of the ten codes: another string,
    no [event] at all, a number in its place, a document that is no
    object. *)
Example unrecognized_replies :
  map (fun text =>
         sent <$> requests (step parse_json (one_pending "arm_away")
                              (Message "alarmo/event" text noon)) !! 0)
      [event_payload "ARMED"; "{}"; "[1, 2]"; "7"]
  = map (fun ev =>
           Some [(400, Reply false (Some "Unrecognized alarm event received")
                         ev None)])
      [Some (JStr "ARMED"); None; None; None].
Proof. vm_compute. reflexivity. Qed.

(** A text that is no JSON is answered as a parse failure, and the
    observers are told. *)
Example unparsable_reply :
  let s :=
    run parse_json initial
      [Connection 7 noon; Post (Some "arm_away") (Some "1234") false;
       Message "alarmo/event" "ARM_AWAY" later] in
  sent <$> requests s !! 0
  = Some [(500, Reply false (Some "Failed to parse alarm system response")
                  None None)]
  ∧ delivered s
    = [(7, alarmUpdateError "PARSE_ERROR"
             "Failed to parse alarm system response")].
Proof. vm_compute. done. Qed.

(** C7, as stated, fails: when the publish throws, the timer has been
    started (and is then canceled). *)
Lemma publish_failure_had_started_timer :
  In (SetTimeout 5000)
    (updateAlarmState route_io (Some "arm_away") (Some "1234") true).2
  ∧ requests (post (Some "arm_away") (Some "1234") true initial)
    = [Request (Some "arm_away") (Some "1234") true Canceled false
         [(500, Reply false (Some "Failed to send command to alarm system")
                  None None)]].
Proof. split; [by left | reflexivity]. Qed.

(** C8, as stated, fails: after an empty state-topic message the cache
    holds the empty text, and a client that connects then is sent nothing.
    Also, a client that connected to an empty cache is told of a timeout
    before any state-topic message has come: what it does not receive is a
    state notification. *)
Lemma empty_cached_state_is_not_replayed :
  let s := run parse_json initial [Message "alarmo/state" "" noon] in
  alarmState s = Some ""
  ∧ delivered (step parse_json s (Connection 1 later)) = []
  ∧ delivered (run parse_json initial
                 [Connection 1 noon;
                  Post (Some "arm_home") (Some "1234") false; Elapse 0])
    = [(1, alarmUpdateTimeout (Some "arm_home"))].
Proof. vm_compute. done. Qed.

(** ** The theorems at concrete inputs *)

(** C3 at [arm_away] answered by [ARM_AWAY]. *)
Lemma arming_event_settles_with_success_witness :
  ∃ r', requests (step parse_json (one_pending "arm_away")
                    (Message "alarmo/event" (event_payload "ARM_AWAY") noon))
        !! 0 = Some r'
        ∧ settled r'
        ∧ sent r' = [(200, Reply true None (Some (JStr "ARM_AWAY"))
                             (Some "armed_away"))]
        ∧ timer r' = Canceled ∧ listening r' = false.
Proof.
  apply (arming_event_settles_with_success parse_json
           (one_pending "arm_away") 0
           (Request (Some "arm_away") (Some "1234") false Waiting true [])
           (event_payload "ARM_AWAY") noon
           (JObj [("event", JStr "ARM_AWAY")]) "ARM_AWAY" "armed_away").
  - reflexivity.
  - repeat split; reflexivity.
  - vm_compute. reflexivity.
  - reflexivity.
  - simpl. left. reflexivity.
Defined.

(** C9 at an [arm_home] and an [arm_away] command, both answered by the one
    [ARM_AWAY]. *)
Lemma one_event_settles_concurrent_commands_witness :
  ∃ st ri' rj',
    requests (step parse_json two_pending
                (Message "alarmo/event" (event_payload "ARM_AWAY") noon))
    !! 0 = Some ri'
    ∧ requests (step parse_json two_pending
                  (Message "alarmo/event" (event_payload "ARM_AWAY") noon))
      !! 1 = Some rj'
    ∧ req_mode ri' = Some "arm_home" ∧ req_mode rj' = Some "arm_away"
    ∧ settled ri' ∧ settled rj'
    ∧ sent ri' = [(200, Reply true None (Some (JStr "ARM_AWAY")) (Some st))]
    ∧ sent rj' = sent ri'.
Proof.
  apply (one_event_settles_concurrent_commands parse_json two_pending 0 1
           (Request (Some "arm_home") (Some "1234") false Waiting true [])
           (Request (Some "arm_away") (Some "1234") false Waiting true [])
           (event_payload "ARM_AWAY") noon
           (JObj [("event", JStr "ARM_AWAY")]) "ARM_AWAY").
  - lia.
  - reflexivity.
  - repeat split; reflexivity.
  - reflexivity.
  - repeat split; reflexivity.
  - vm_compute. reflexivity.
  - reflexivity.
  - simpl. left. reflexivity.
Defined.

(** C4 as amended, at [INVALID_CODE_PROVIDED]. *)
Lemma rejection_event_settles_with_domain_error_witness :
  ∃ r', requests (step parse_json (one_pending "arm_away")
                    (Message "alarmo/event"
                       (event_payload "INVALID_CODE_PROVIDED") noon))
        !! 0 = Some r'
        ∧ settled r'
        ∧ sent r' = [(400, Reply false (Some "Invalid security code provided.")
                             (Some (JStr "INVALID_CODE_PROVIDED")) None)].
Proof.
  destruct (rejection_event_settles_with_domain_error parse_json
              (one_pending "arm_away") 0
              (Request (Some "arm_away") (Some "1234") false Waiting true [])
              (event_payload "INVALID_CODE_PROVIDED") noon
              (JObj [("event", JStr "INVALID_CODE_PROVIDED")]))
    as (r' & Hr' & Hs & Hrejected & _).
  - reflexivity.
  - repeat split; reflexivity.
  - vm_compute. reflexivity.
  - exists r'. split; [exact Hr'|]. split; [exact Hs|].
    apply (Hrejected (Some (JStr "INVALID_CODE_PROVIDED"))
             "INVALID_CODE_PROVIDED" "Invalid security code provided.").
    + reflexivity.
    + reflexivity.
    + simpl. right. right. left. reflexivity.
Defined.

(** C2 as amended, at a [disarm] command. *)
Lemma disarmed_state_settles_any_mode_witness :
  ∃ r', requests (step parse_json (one_pending "disarm")
                    (Message "alarmo/state" "disarmed" noon)) !! 0 = Some r'
        ∧ req_mode r' = Some "disarm"
        ∧ settled r'
        ∧ sent r' = [(200, Reply true None (Some (JStr "DISARMED"))
                             (Some "disarmed"))].
Proof.
  destruct (disarmed_state_settles_any_mode parse_json
              (one_pending "disarm") 0
              (Request (Some "disarm") (Some "1234") false Waiting true [])
              "disarmed" noon)
    as (r' & Hr' & Hmode & Hdisarmed & _).
  - reflexivity.
  - repeat split; reflexivity.
  - destruct (Hdisarmed eq_refl) as (Hs & Hsent & _).
    exists r'. split; [exact Hr'|]. split; [exact Hmode|].
    split; [exact Hs | exact Hsent].
Defined.

(** C7 as amended, at [arm_away] with code [1234] on a fresh server. *)
Lemma publish_failure_settles_and_cancels_timer_witness :
  falsy (Some "1234") = false
  ∧ requests (run parse_json (post (Some "arm_away") (Some "1234") true initial)
                [Elapse 0]) !! 0
    = Some (Request (Some "arm_away") (Some "1234") true Canceled false
              [(500, Reply false
                       (Some "Failed to send command to alarm system")
                       None None)]).
Proof.
  split; [reflexivity|].
  destruct (publish_failure_settles_and_cancels_timer parse_json
              (Some "arm_away") (Some "1234") initial eq_refl)
    as (_ & _ & _ & _ & Hlater).
  exact (Hlater [Elapse 0]).
Defined.

(** C10 at a text that is no state of the controller, with two clients
    connected. *)
Lemma state_message_is_forwarded_verbatim_witness :
  let s := run parse_json initial [Connection 1 noon; Connection 2 noon] in
  let s' := step parse_json s (Message "alarmo/state" "out to lunch" later) in
  isStateTopic "alarmo/state" = true
  ∧ alarmState s' = Some "out to lunch"
  ∧ sockets s' = [1; 2]
  ∧ delivered s'
    = [(1, alarmStateChanged "alarmo/state" "out to lunch" later);
       (2, alarmStateChanged "alarmo/state" "out to lunch" later)].
Proof.
  split; [reflexivity|].
  exact (state_message_is_forwarded_verbatim parse_json
           (run parse_json initial [Connection 1 noon; Connection 2 noon])
           "alarmo/state" "out to lunch" later eq_refl).
Defined.

(** C8 as amended: a client connecting while the cache holds [armed_home],
    beside a client that was there before, and a client connecting to a
    fresh server. *)
Lemma new_observer_gets_cached_state_once_witness :
  let s :=
    run parse_json initial
      [Connection 1 noon; Message "alarmo/state" "armed_home" noon] in
  alarmState s = Some "armed_home"
  ∧ delivered (step parse_json s (Connection 2 later))
    = delivered s ++ [(2, alarmStateChanged "alarmo/state" "armed_home" later)]
  ∧ delivered (step parse_json initial (Connection 2 later)) = []
  ∧ In (2, alarmStateChanged "alarmo/state" "armed_home" later)
      (delivered
         (step parse_json
            (run parse_json (step parse_json initial (Connection 2 later))
               [Post (Some "arm_home") (Some "1234") false; Elapse 0])
            (Message "alarmo/state" "armed_home" later))).
Proof.
  intros s. split; [reflexivity|]. split.
  - apply (proj1 (new_observer_gets_cached_state_once parse_json s 2 later)
             "armed_home"); [reflexivity | discriminate].
  - destruct (proj2 (new_observer_gets_cached_state_once parse_json initial 2
                       later) eq_refl) as [Hnothing Huntil].
    split; [exact Hnothing|].
    exact (proj2 (Huntil [Post (Some "arm_home") (Some "1234") false; Elapse 0]
                    "alarmo/state" "armed_home" later eq_refl eq_refl)).
Defined.

(** * Further properties *)

(** ** The cache and [GET /state] *)

Section Cache.

Variable JSON_parse : string -> option json.

Lemma alarmState_step s e :
  alarmState (step JSON_parse s e)
  = match state_text e with
    | Some text => Some text
    | None => alarmState s
    end.
Proof.
  destruct e as [m c pt | topic text now | j | sid now | sid]; simpl.
  - unfold post. by destruct (updateAlarmState _ _ _ _).
  - unfold message_arrives, stateListener. by destruct (isStateTopic topic).
  - unfold elapse. destruct (requests s !! j) as [r|]; [|done].
    destruct (timer r); try done. by destruct (invoke _ _).
  - done.
  - done.
Qed.

Lemma alarmState_run inputs s :
  alarmState (run JSON_parse s inputs)
  = match last_state_text inputs with
    | Some text => Some text
    | None => alarmState s
    end.
Proof.
  revert s. induction inputs as [|e inputs IH]; intros s; [done|].
  simpl. fold (run JSON_parse (step JSON_parse s e) inputs).
  rewrite IH, alarmState_step. unfold last_state_text.
  change (omap state_text (e :: inputs))
    with (match state_text e with
          | Some text => text :: omap state_text inputs
          | None => omap state_text inputs
          end).
  destruct (state_text e) as [text|]; [|done].
  rewrite last_cons. by destruct (last (omap state_text inputs)).
Qed.

(** X1.  The cached state has one writer.  After any inputs the cache holds
    the text of the last state-topic message among them, and what it held
    before if there was none: no call of the route, no reply, no deadline
    and no client writes it. *)
Theorem cache_holds_last_state_message (s : server) (inputs : list input) :
  alarmState (run JSON_parse s inputs)
  = match last_state_text inputs with
    | Some text => Some text
    | None => alarmState s
    end.
Proof. apply alarmState_run. Qed.

(** X2.  [GET /api/alarm/state] on a server that has run [inputs] since it
    started answers the text of the last state-topic message, and
    ['unknown'] when there was none or when that text is empty. *)
Theorem getState_after_run (inputs : list input) :
  getState (run JSON_parse initial inputs)
  = match last_state_text inputs with
    | Some text => if String.eqb text "" then "unknown" else text
    | None => "unknown"
    end.
Proof.
  unfold getState. rewrite alarmState_run.
  by destruct (last_state_text inputs).
Qed.

End Cache.

(** ** What is published *)

Section Published.

Variable JSON_parse : string -> option json.

Lemma published_step s e :
  published (step JSON_parse s e)
  = published s ++ match command_of e with
                   | Some c => [c]
                   | None => []
                   end.
Proof.
  destruct e as [m c pt | topic text now | j | sid now | sid]; simpl.
  - unfold post, updateAlarmState.
    destruct (falsy c), pt; simpl; by rewrite ?app_nil_r.
  - unfold message_arrives, stateListener.
    destruct (isStateTopic topic); simpl; by rewrite app_nil_r.
  - rewrite app_nil_r. unfold elapse.
    destruct (requests s !! j) as [r|]; [|done].
    destruct (timer r); try done. by destruct (invoke _ _).
  - by rewrite app_nil_r.
  - by rewrite app_nil_r.
Qed.

(** X3.  The broker is sent exactly the accepted commands, in order: one
    [{command: mode, code}] on [alarmo/command] for every call of the route
    whose code is not empty and whose publish does not throw.  Replies,
    deadlines, state messages and clients never publish, and neither does a
    refused call. *)
Theorem published_is_the_accepted_commands
    (s : server) (inputs : list input) :
  published (run JSON_parse s inputs)
  = published s ++ omap command_of inputs.
Proof.
  revert s. induction inputs as [|e inputs IH]; intros s; simpl.
  - by rewrite app_nil_r.
  - fold (run JSON_parse (step JSON_parse s e) inputs).
    rewrite IH, published_step, <- app_assoc. f_equal.
    change (omap command_of (e :: inputs))
      with (match command_of e with
            | Some c => c :: omap command_of inputs
            | None => omap command_of inputs
            end).
    by destruct (command_of e).
Qed.

End Published.

(** ** Commands do not interfere *)

Section Independence.

Variable JSON_parse : string -> option json.

Lemma step_local s1 s2 e i r :
  requests s1 !! i = Some r → requests s2 !! i = Some r →
  ∃ r', requests (step JSON_parse s1 e) !! i = Some r'
        ∧ requests (step JSON_parse s2 e) !! i = Some r'.
Proof.
  intros H1 H2.
  destruct e as [m c pt | topic text now | j | sid now | sid].
  - exists r. simpl. unfold post. destruct (updateAlarmState _ _ _ _). simpl.
    split; by apply lookup_app_l_Some.
  - exists (hear JSON_parse topic text r).1.
    split; by apply message_lookup.
  - simpl. destruct (decide (i = j)) as [<- | Hne].
    + unfold elapse. rewrite H1, H2.
      destruct (timer r); try by exists r.
      destruct (invoke _ _) as [r' calls]. simpl. exists r'.
      split; apply list_lookup_insert_eq; by eapply lookup_lt_Some.
    + exists r. by rewrite !elapse_other.
  - by exists r.
  - by exists r.
Qed.

(** X4.  What becomes of a command depends on its own closure and on the
    inputs, and on nothing else in the server.  Two servers that hold the
    same closure at the same place hold the same closure there after the
    same inputs, whatever other commands are pending or settled, whoever is
    connected and whatever the cache holds: settling, timing out or
    refusing one command never changes another. *)
Theorem commands_do_not_interfere
    (inputs : list input) (s1 s2 : server) (i : nat) (r : request) :
  requests s1 !! i = Some r → requests s2 !! i = Some r →
  ∃ r', requests (run JSON_parse s1 inputs) !! i = Some r'
        ∧ requests (run JSON_parse s2 inputs) !! i = Some r'.
Proof.
  revert s1 s2 r. induction inputs as [|e inputs IH]; intros s1 s2 r H1 H2.
  - by exists r.
  - destruct (step_local s1 s2 e i r H1 H2) as (r1 & H1' & H2').
    exact (IH _ _ r1 H1' H2').
Qed.

(** X5.  The deadline of a pending command, in full: its closure is
    answered [504 {success: false, message, event: 'TIMEOUT'}], its timer
    has elapsed and its listener is removed; every connected client is sent
    one ['alarmUpdateTimeout'] carrying the mode of the command; every
    other closure, the publish log and the cache stay as they were. *)
Theorem deadline_of_a_pending_command (s : server) (i : nat) (r : request) :
  requests s !! i = Some r → pending r →
  step JSON_parse s (Elapse i)
  = Server (alarmState s) (sockets s)
      (<[i := Request (req_mode r) (req_code r) true Elapsed false
                [(504, Reply false
                         (Some "Timeout waiting for alarm system response")
                         (Some (JStr "TIMEOUT")) None)]]> (requests s))
      (published s)
      (delivered s
       ++ map (fun sid => (sid, alarmUpdateTimeout (req_mode r))) (sockets s)).
Proof.
  intros Hi (Hflag & Htimer & Hlisten & Hsent). simpl.
  unfold elapse. rewrite Hi, Htimer. unfold invoke.
  destruct r as [m c flag t l out]. simpl in *. subst. simpl.
  unfold broadcast_all. simpl. by rewrite app_nil_r.
Qed.

(** A handler that is called off its two topics changes nothing. *)
Lemma hear_other_topic topic text r :
  String.eqb topic "alarmo/event" = false →
  String.eqb topic "alarmo/state" = false →
  hear JSON_parse topic text r = (r, []).
Proof.
  intros Hevent Hstate. unfold hear, invoke, responseHandler.
  rewrite Hevent, Hstate. destruct (listening r); [|done].
  simpl. by rewrite set_hasResponded_same.
Qed.

(** X6.  A command is settled only on [alarmo/event] and [alarmo/state].
    A message on any other topic leaves every closure and the publish log
    as they were, even one on a state topic of the form
    [alarmo/<name>/state] that carries ["disarmed"] and is written to the
    cache; and if the topic is no state topic either, the server does not
    change at all. *)
Theorem other_topics_settle_nothing
    (s : server) (topic text now : string) :
  topic ≠ "alarmo/event" → topic ≠ "alarmo/state" →
  requests (step JSON_parse s (Message topic text now)) = requests s
  ∧ published (step JSON_parse s (Message topic text now)) = published s
  ∧ (isStateTopic topic = false →
     step JSON_parse s (Message topic text now) = s).
Proof.
  intros Hevent Hstate.
  apply String.eqb_neq in Hevent, Hstate.
  assert (∀ rs, map (hear JSON_parse topic text) rs
                = map (fun r => (r, [])) rs) as Hheard.
  { intros rs. apply map_ext. intros r. by apply hear_other_topic. }
  assert (∀ rs : list request,
            map fst (map (fun r => (r, @nil effect)) rs) = rs) as Hfst.
  { intros rs. rewrite map_map. simpl. apply map_id. }
  assert (∀ clients (rs : list request),
            concat (map (fun h => broadcast_all clients h.2)
                      (map (fun r => (r, @nil effect)) rs)) = []) as Hnone.
  { intros clients rs. induction rs as [|r rs IH]; [done | exact IH]. }
  simpl. unfold message_arrives. rewrite Hheard.
  rewrite Hfst, Hnone, app_nil_r.
  unfold stateListener. destruct (isStateTopic topic); simpl.
  - repeat split; try done.
  - repeat split; try done. intros _. by destruct s.
Qed.

End Independence.

(** ** Every response is well formed *)

Lemma sent_request_effect r e :
  sent (request_effect r e) = sent r ++ responses [e].
Proof.
  destruct e; simpl; rewrite ?app_nil_r; try done.
  by destruct (timer r).
Qed.

Lemma sent_fold calls r :
  sent (fold_left request_effect calls r) = sent r ++ responses calls.
Proof.
  revert r. induction calls as [|e calls IH]; intros r; simpl.
  - by rewrite app_nil_r.
  - rewrite IH, sent_request_effect, <- app_assoc. f_equal.
    by destruct e.
Qed.

Lemma getErrorMessage_not_empty e : String.eqb (getErrorMessage e) "" = false.
Proof.
  unfold getErrorMessage.
  by repeat match goal with
            | |- context [if ?b then _ else _] => destruct b
            end.
Qed.

Lemma arm_event_state e :
  is_arm_event e = true → String.eqb (mapEventToState e) "unknown" = false.
Proof.
  unfold is_arm_event. intros He.
  repeat (apply orb_true_iff in He as [He | He]);
    apply String.eqb_eq in He; by subst.
Qed.

Lemma updateAlarmState_coherent io mode code publish_throws :
  all_coherent (responses (updateAlarmState io mode code publish_throws).2).
Proof.
  unfold updateAlarmState, all_coherent.
  destruct (falsy code), publish_throws, io; simpl; repeat constructor.
Qed.

Lemma responseTimeout_coherent io mode flag :
  all_coherent (responses (responseTimeout io mode flag).2).
Proof.
  unfold responseTimeout, all_coherent.
  destruct flag, io; simpl; repeat constructor.
Qed.

Lemma switch_coherent ev :
  match switch_event ev with
  | Armed e => ev = Some (JStr e) ∧ is_arm_event e = true
  | Trigger => ev = Some (JStr "TRIGGER")
  | Rejected e => True
  | Default => True
  end.
Proof.
  destruct ev as [[| | |e| |]|]; simpl; try done.
  destruct (is_arm_event e) eqn:Harm; [done|].
  destruct (String.eqb_spec e "TRIGGER") as [-> |]; [done|].
  by destruct (is_rejection_event e).
Qed.

Lemma responseHandler_coherent JSON_parse io topic text flag :
  all_coherent (responses (responseHandler JSON_parse io topic text flag).2).
Proof.
  assert (∀ (a b : bool * list effect),
            all_coherent (responses a.2) → all_coherent (responses b.2) →
            all_coherent (responses (let '(_, c1) := a in
                                     let '(f2, c2) := b in
                                     (f2, c1 ++ c2)).2)) as Hjoin.
  { intros [f1 c1] [f2 c2] H1 H2. simpl in *. unfold responses, all_coherent.
    rewrite omap_app. by apply Forall_app. }
  unfold responseHandler.
  set (first := if String.eqb topic "alarmo/event" then _ else _).
  assert (all_coherent (responses first.2)) as Hfirst.
  { subst first. destruct (String.eqb topic "alarmo/event"); [|constructor].
    unfold try_event, catch_event.
    destruct (JSON_parse text) as [response|];
      [|destruct flag, io; simpl; repeat constructor].
    destruct flag; simpl; [constructor|].
    destruct (get_event response) as [ev|];
      [|destruct io; simpl; repeat constructor].
    pose proof (switch_coherent ev) as Hev.
    destruct (switch_event ev) as [e| |e|]; simpl.
    - destruct Hev as [-> Harm]. constructor; [|constructor].
      simpl. rewrite (arm_event_state e Harm), String.eqb_refl. done.
    - subst ev. repeat constructor.
    - constructor; [|constructor]. simpl.
      by rewrite getErrorMessage_not_empty.
    - repeat constructor. }
  destruct first as [f1 c1]. simpl in Hfirst.
  destruct (String.eqb topic "alarmo/state");
    [destruct (String.eqb text "disarmed")|]; simpl;
    unfold responses, all_coherent in *; rewrite omap_app;
    apply Forall_app; (split; [done|]); simpl; repeat constructor.
Qed.

Section WellFormed.

Variable JSON_parse : string -> option json.

Lemma invoke_coherent cb r :
  (∀ flag, all_coherent (responses (cb flag).2)) →
  all_coherent (sent r) → all_coherent (sent (invoke cb r).1).
Proof.
  intros Hcb Hr. unfold invoke. specialize (Hcb (hasResponded r)).
  destruct (cb (hasResponded r)) as [flag calls]. simpl in *.
  rewrite sent_fold. apply Forall_app. split; [|done]. by destruct r.
Qed.

Lemma step_coherent s e :
  closures_coherent s → closures_coherent (step JSON_parse s e).
Proof.
  unfold closures_coherent. intros Hs.
  destruct e as [m c pt | topic text now | j | sid now | sid]; simpl;
    try done.
  - unfold post.
    pose proof (updateAlarmState_coherent route_io m c pt) as Hcalls.
    destruct (updateAlarmState route_io m c pt) as [flag calls]. simpl in *.
    apply Forall_app. split; [done|]. constructor; [|constructor].
    rewrite sent_fold. simpl. done.
  - unfold message_arrives.
    assert (requests (stateListener topic text now s) = requests s) as ->
      by (unfold stateListener; by destruct (isStateTopic topic)).
    simpl. rewrite map_map. apply Forall_fmap.
    eapply Forall_impl; [exact Hs|]. intros r Hr. simpl.
    unfold hear. destruct (listening r); [|done].
    apply invoke_coherent; [|done].
    intros flag. apply responseHandler_coherent.
  - unfold elapse. destruct (requests s !! j) as [r|] eqn:Hj; [|done].
    destruct (timer r) eqn:Ht; try done.
    pose proof (invoke_coherent (responseTimeout route_io (req_mode r))
                  (set_timer Elapsed r)
                  (fun flag => responseTimeout_coherent _ _ flag)) as Hinv.
    destruct (invoke _ _) as [r' calls]. simpl in *.
    apply Forall_insert; [done|]. apply Hinv.
    by apply (Forall_lookup_1 _ _ _ _ Hs Hj).
Qed.

Lemma run_coherent inputs s :
  closures_coherent s → closures_coherent (run JSON_parse s inputs).
Proof.
  revert s. induction inputs as [|e inputs IH]; intros s Hs; [done|].
  simpl. apply IH. by apply step_coherent.
Qed.

(** X7.  Whatever the server has been through since it started, every
    response the route has written is one of two kinds.  Either its status
    is [200] and its body has [success: true], no message, an event, and a
    state that is never ['unknown']: the state [mapEventToState] gives for
    the event, or ['disarmed'] for the event ['DISARMED'].  Or its status
    is [400], [500] or [504] and its body has [success: false], no state,
    and a message that is not empty. *)
Theorem every_response_is_coherent
    (inputs : list input) (i : nat) (r : request) (response : nat * reply) :
  requests (run JSON_parse initial inputs) !! i = Some r →
  In response (sent r) →
  coherent response = true.
Proof.
  intros Hi Hin.
  assert (closures_coherent (run JSON_parse initial inputs)) as Hall
    by (apply run_coherent; constructor).
  pose proof (Forall_lookup_1 _ _ _ _ Hall Hi) as Hr.
  unfold all_coherent in Hr. rewrite List.Forall_forall in Hr. by apply Hr.
Qed.

End WellFormed.

(** ** Replies that cannot be read *)

Section Unreadable.

Variable JSON_parse : string -> option json.

Lemma hear_unreadable text r :
  JSON_parse text = None ∨ JSON_parse text = Some JNull →
  hear JSON_parse "alarmo/event" text r
  = (failed_to_parse r,
     if awaits_reply r then
       [ClearTimeout; RemoveListener; IoEmit parse_failure_note;
        Respond parse_failure.1 parse_failure.2]
     else []).
Proof.
  intros Hparse. unfold hear, failed_to_parse, awaits_reply.
  destruct r as [m c flag t l out]. simpl.
  destruct l; [|done]. simpl.
  unfold invoke, responseHandler, try_event, catch_event. simpl.
  destruct Hparse as [-> | ->]; destruct flag; simpl; try done;
    by destruct t.
Qed.

(** X8.  A message on the event topic that [JSON.parse] rejects, or that is
    the document [null], fails every command that is waiting for its
    reply: each is answered [500 {success: false, message: 'Failed to parse
    alarm system response'}], its timer canceled and its listener removed,
    and every connected client is sent one ['alarmUpdateError'] with
    [error: 'PARSE_ERROR'] for each command failed.  Settled commands, the
    publish log and the cache do not change. *)
Theorem unreadable_reply_fails_waiting_commands
    (s : server) (text now : string) :
  JSON_parse text = None ∨ JSON_parse text = Some JNull →
  step JSON_parse s (Message "alarmo/event" text now)
  = Server (alarmState s) (sockets s) (map failed_to_parse (requests s))
      (published s)
      (delivered s
       ++ concat (map (fun r => if awaits_reply r
                                then broadcast (sockets s) parse_failure_note
                                else [])
                    (requests s))).
Proof.
  intros Hparse. simpl. unfold message_arrives.
  change (stateListener "alarmo/event" text now s) with s.
  f_equal.
  - rewrite map_map. apply map_ext. intros r.
    by rewrite (hear_unreadable text r Hparse).
  - f_equal. rewrite map_map. f_equal. apply map_ext. intros r.
    rewrite (hear_unreadable text r Hparse). simpl.
    destruct (awaits_reply r); [|done].
    unfold broadcast_all. simpl. by rewrite app_nil_r.
Qed.

End Unreadable.

(** ** api/sensors.js *)



(** X9.  [POST /api/sensors/getStates] asks Home Assistant only when
    [entityIds] is an array that is not empty.  Anything else is answered
    at once: [400] with an error when [entityIds] is missing or is no
    array, [200 {entities: []}] when it is the empty array. *)
Theorem getStates_asks_only_for_ids (entityIds : jsval) :
  match getStates entityIds with
  | Await _ => ∃ id ids, entityIds = Some (JArr (id :: ids))
  | Answer (status, body, warned) =>
      warned = []
      ∧ (entityIds = Some (JArr []) ∧ status = 200 ∧ body = Entities []
         ∨ (∀ ids, entityIds ≠ Some (JArr ids)) ∧ status = 400
           ∧ ∃ error, body = SensorsError error None)
  end.
Proof.
  destruct entityIds as [[| | | |[|id ids]|]|]; simpl;
    try (split; [done|]; right; split; [done|]; split; [done|]; by eexists).
  - split; [done|]. by left.
  - by exists id, ids.
Qed.


(** X11.  [GET /api/sensors] keeps the entities of the inventory whose id
    starts with the configured filter turned into a string, and sorts
    them: whatever order the sort gives, the answer holds those entities
    and no others, each as often as the inventory has it.  config.js sets
    no [sensorFilter], so as shipped the prefix tested is the text
    [undefined], and an entity whose id does not start with it is never
    listed. *)
Theorem listSensors_keeps_ids_with_the_prefix
    (sort_by_name : list entity → option (list entity))
    (sensorFilter : option string) (data sensors : list entity) :
  (∀ l l', sort_by_name l = Some l' → Permutation l l') →
  ∃ k, listSensors sort_by_name sensorFilter = Await k
       ∧ (k (Fetched data) = (200, SensorList sensors) →
          Permutation
            (List.filter
               (fun e => String.prefix (to_string sensorFilter) (entity_id e))
               data)
            sensors
          ∧ (sensorFilter = config_sensorFilter →
             ∀ e, In e sensors →
                  String.prefix "undefined" (entity_id e) = true)).
Proof.
  intros Hsort. eexists. split; [reflexivity|]. simpl.
  destruct (sort_by_name _) as [sorted|] eqn:Hsorted; [|done].
  intros [= <-]. pose proof (Hsort _ _ Hsorted) as Hperm.
  split; [done|]. intros -> e Hin.
  apply (Permutation_in _ (Permutation_sym Hperm)) in Hin.
  by apply filter_In in Hin as [_ Hprefix].
Qed.

(** ** The keypad page *)

(** A call of the route with a code, whose publish does not throw. *)
Lemma post_accepted mode code s :
  falsy code = false →
  post mode code false s
  = Server (alarmState s) (sockets s)
      (requests s ++ [Request mode code false Waiting true []])
      (published s
       ++ [("alarmo/command",
            object_literal [("command", mode); ("code", code)])])
      (delivered s).
Proof.
  intros Hcode. unfold post, updateAlarmState. rewrite Hcode. simpl.
  unfold broadcast_all. simpl. by rewrite app_nil_r.
Qed.

(** Splits every test in the goal and clears what does not fit. *)
Ltac by_cases :=
  repeat (simpl in *; try case_match; simplify_eq; try done).

Section PageFacts.

Import Page.

Variable arm_buttons : bool.

Lemma requestArmWithMode_pin b code h k :
  pinLength (requestArmWithMode b code h k).1 ≤ pinLength k.
Proof.
  unfold requestArmWithMode, set_pressed, set_pending,
    set_code.
  destruct b, k; by_cases; lia.
Qed.

Lemma happen_pin h k :
  pinLength (happen arm_buttons h k).1 ≤ Nat.max (pinLength k) 0
  ∨ (pinLength k < 4 ∧ pinLength (happen arm_buttons h k).1
                        = S (pinLength k)).
Proof.
  destruct h as [key | b h | b | open | n |]; simpl.
  - unfold handleKeyPress, set_code, set_pending.
    destruct k. by_cases; try (left; lia).
    right. apply Nat.ltb_lt in H1. done.
  - left. unfold handleArmButtonPress.
    repeat case_match; simplify_eq;
      try (etrans; [apply requestArmWithMode_pin|]; simpl; lia).
    pose proof (requestArmWithMode_pin b (Some (currentCode k)) h
                  (set_code "" 0 k)) as Hle.
    rewrite H1 in Hle. simpl in *. lia.
  - left. unfold armButtonTimeout. destruct b, k; by_cases; lia.
  - left. unfold updateArmButtonsForOpenSensors. destruct k; by_cases; lia.
  - left. unfold notified, updateAlarmState,
      updateArmButtonsState, set_alarm_state,
      set_lastButtonState, set_pending.
    destruct n, k; by_cases; lia.
  - left. unfold disconnected, updateAlarmState,
      updateArmButtonsState, set_lastButtonState, set_pending.
    destruct k; by_cases; lia.
Qed.

Lemma happenings_pin hs k :
  pinLength k ≤ 4 → pinLength (happenings arm_buttons hs k).1 ≤ 4.
Proof.
  revert k. induction hs as [|h hs IH]; intros k Hk; simpl; [done|].
  pose proof (happen_pin h k) as Hh.
  destruct (happen arm_buttons h k) as [k1 calls1] eqn:Hh1.
  specialize (IH k1).
  destruct (happenings arm_buttons hs k1) as [k2 calls2]. simpl in *.
  apply IH. lia.
Qed.

(** X12.  The code on the page never has more than four keys: whatever
    is touched, whatever the server sends and whenever a timer of the page
    fires, [pinLength] stays at most 4. *)
Theorem pin_never_exceeds_four (hs : list happening) :
  pinLength (happenings arm_buttons hs (loaded_page arm_buttons)).1 ≤ 4.
Proof.
  apply happenings_pin. unfold loaded_page, updateArmButtonsState.
  destruct arm_buttons; simpl; lia.
Qed.

Lemma append_assoc (a b c : string) :
  String.append (String.append a b) c = String.append a (String.append b c).
Proof. induction a as [|x a IH]; simpl; [done | by rewrite IH]. Qed.

Lemma append_empty (a : string) : String.append a "" = a.
Proof. induction a as [|x a IH]; simpl; [done | by rewrite IH]. Qed.

Lemma happenings_app hs1 hs2 k :
  happenings arm_buttons (hs1 ++ hs2) k
  = let '(k1, calls1) := happenings arm_buttons hs1 k in
    let '(k2, calls2) := happenings arm_buttons hs2 k1 in
    (k2, calls1 ++ calls2).
Proof.
  revert k. induction hs1 as [|h hs1 IH]; intros k; simpl.
  - by destruct (happenings arm_buttons hs2 k).
  - destruct (happen arm_buttons h k) as [k1 calls1]. rewrite IH.
    destruct (happenings arm_buttons hs1 k1) as [k2 calls2].
    destruct (happenings arm_buttons hs2 k2) as [k3 calls3].
    by rewrite app_assoc.
Qed.

Lemma posted_app calls1 calls2 :
  posted (calls1 ++ calls2) = posted calls1 ++ posted calls2.
Proof. apply omap_app. Qed.

#[local] Arguments Nat.min : simpl never.
#[local] Arguments Nat.sub : simpl never.
#[local] Arguments take : simpl never.

(** Typing keys of the code: the first that fit are appended, the others
    are refused, nothing is sent. *)
Lemma keys_typed keys k :
  forallb ordinary keys = true → pinLength k ≤ 4 →
  (happenings arm_buttons (map Key keys) k).1
  = set_code
      (String.append (currentCode k) (join (take (4 - pinLength k) keys)))
      (Nat.min 4 (pinLength k + length keys)) k
  ∧ posted (happenings arm_buttons (map Key keys) k).2 = [].
Proof.
  revert k. induction keys as [|key keys IH]; intros k Hkeys Hpin.
  - rewrite take_nil. simpl.
    rewrite append_empty, Nat.add_0_r, Nat.min_r by done. by destruct k.
  - simpl in Hkeys. apply andb_true_iff in Hkeys as [Hkey Hrest].
    unfold ordinary in Hkey. apply andb_true_iff in Hkey as [Hc He].
    apply negb_true_iff in Hc, He.
    simpl. unfold handleKeyPress. rewrite Hc, He.
    destruct (Nat.ltb_spec (pinLength k) 4) as [Hlt | Hge].
    + specialize (IH (set_code (String.append (currentCode k) key)
                        (S (pinLength k)) k) Hrest).
      destruct (happenings arm_buttons (map Key keys) _) as [k2 calls2].
      simpl in *. destruct IH as [-> ->]; [lia|]. split; [|done].
      destruct (4 - pinLength k) as [|n] eqn:Hn; [lia|].
      replace (4 - S (pinLength k)) with n by lia.
      change (take (S n) (key :: keys)) with (key :: take n keys).
      simpl. rewrite append_assoc.
      replace (S (pinLength k + length keys))
        with (pinLength k + S (length keys)) by lia.
      done.
    + specialize (IH k Hrest Hpin).
      destruct (happenings arm_buttons (map Key keys) k) as [k2 calls2].
      simpl in *. destruct IH as [-> ->]. split; [|done].
      replace (4 - pinLength k) with 0 by lia. rewrite !take_0.
      f_equal. lia.
Qed.

(** X13.  On a page whose code is empty, typing keys other than [clear]
    and [enter] leaves the first four of them as the code, in order;
    further keys are refused, and typing sends nothing to the server. *)
Theorem typed_code_is_the_first_four_keys (keys : list string) (k : keypad) :
  forallb ordinary keys = true →
  currentCode k = "" → pinLength k = 0 →
  let '(k', calls) := happenings arm_buttons (map Key keys) k in
  currentCode k' = join (take 4 keys)
  ∧ pinLength k' = Nat.min 4 (length keys)
  ∧ posted calls = [].
Proof.
  intros Hkeys Hcode Hpin.
  destruct (keys_typed keys k Hkeys) as [Hk Hposted]; [lia|].
  destruct (happenings arm_buttons (map Key keys) k) as [k' calls].
  simpl in *. subst k'. rewrite Hcode, Hpin. simpl.
  by rewrite Nat.sub_0_r.
Qed.

(** [enter] on a page that holds a code and a pending arm mode. *)
Lemma enter_with_pending_mode mode k :
  currentCode k ≠ "" → pendingArmMode k = Some mode → mode ≠ "" →
  posted (handleKeyPress "enter" k).2 = [(mode, currentCode k)].
Proof.
  intros Hcode Hpending Hmode. apply String.eqb_neq in Hcode, Hmode.
  unfold handleKeyPress. simpl. by rewrite Hcode, Hpending, Hmode.
Qed.

(** [enter] on a page that holds a code and no pending arm mode. *)
Lemma enter_without_pending_mode k :
  currentCode k ≠ "" → pendingArmMode k = None →
  posted (handleKeyPress "enter" k).2 = [("disarm", currentCode k)].
Proof.
  intros Hcode Hpending. apply String.eqb_neq in Hcode.
  unfold handleKeyPress. simpl. by rewrite Hcode, Hpending.
Qed.

(** An arm button touched while no sensor is shown open and no full code
    is typed: the mode is kept, the code emptied, nothing is sent. *)
Lemma arm_button_without_code b k :
  negb (String.eqb (currentCode k) "") && Nat.leb 4 (pinLength k) = false →
  handleArmButtonPress b false k
  = (set_code "" 0 (set_pending (Some (arm_mode b)) k),
     [playSound "keypad"; playHapticFeedback "light"; updatePinDisplay;
      statusDetail (String.append "Enter Code to Arm "
                      (home_or_away (arm_mode b)))]).
Proof.
  intros Hcode. unfold handleArmButtonPress.
  rewrite andb_false_l, Hcode. by unfold requestArmWithMode.
Qed.

Lemma set_code_set_code c1 n1 c2 n2 k :
  set_code c1 n1 (set_code c2 n2 k) = set_code c1 n1 k.
Proof. done. Qed.

(** X14.  Arming from the keypad takes the button, the code and [enter].
    An arm button touched while no sensor is shown open and fewer than
    four keys are typed sends nothing; the keys typed after it and then
    [enter] send one request, for the mode of the button with the first
    four keys as its code. *)
Theorem arm_button_then_code_then_enter
    (b : arm_button) (keys : list string) (k : keypad) :
  pinLength k < 4 →
  forallb ordinary keys = true → join (take 4 keys) ≠ "" →
  posted (happenings arm_buttons
            (ArmButton b false :: map Key keys ++ [Key "enter"]) k).2
  = [(arm_mode b, join (take 4 keys))].
Proof.
  intros Hpin Hkeys Hcode.
  cbn [happenings happen].
  rewrite arm_button_without_code
    by (apply andb_false_iff; right; by apply Nat.leb_gt).
  rewrite happenings_app.
  set (k1 := set_code "" 0 _).
  destruct (keys_typed keys k1 Hkeys) as [Hk Hposted];
    [subst k1; simpl; lia|].
  destruct (happenings arm_buttons (map Key keys) k1) as [k2 calls2].
  cbn [fst snd] in Hk, Hposted. subst k2.
  replace (4 - pinLength k1) with 4 by (subst k1; simpl; lia).
  subst k1. rewrite set_code_set_code.
  change (currentCode (set_code "" 0 _)) with "".
  change (String.append "" (join (take 4 keys))) with (join (take 4 keys)).
  cbn [happenings happen].
  match goal with
  | |- context [handleKeyPress "enter" ?page] =>
      pose proof (enter_with_pending_mode (arm_mode b) page Hcode eq_refl)
        as Henter;
      destruct (handleKeyPress "enter" page) as [k3 calls3]
  end.
  cbn [fst snd] in *. rewrite !posted_app, Hposted.
  rewrite Henter by (by destruct b). done.
Qed.

(** X15.  While sensors are shown open, arming needs two touches of the
    button.  With a full code typed, the first touch sends nothing and
    keeps the code; a second touch sends one request, for the mode of the
    button with that code; and if the five seconds of the first touch run
    out before the second, the second counts as a first and sends nothing
    either. *)
Theorem open_sensors_need_a_second_press (b : arm_button) (k : keypad) :
  pressed b k = false → currentCode k ≠ "" → 4 ≤ pinLength k →
  let '(k1, calls1) := happenings arm_buttons [ArmButton b true] k in
  posted calls1 = []
  ∧ currentCode k1 = currentCode k ∧ pressed b k1 = true
  ∧ posted (happenings arm_buttons [ArmButton b true; ArmButton b true] k).2
    = [(arm_mode b, currentCode k)]
  ∧ posted (happenings arm_buttons
              [ArmButton b true; ArmButtonTimeout b; ArmButton b true] k).2
    = [].
Proof.
  intros Hpressed Hcode Hpin.
  apply String.eqb_neq in Hcode. apply Nat.leb_le in Hpin.
  destruct b, k; simpl in *; subst;
    unfold handleArmButtonPress, requestArmWithMode, armButtonTimeout;
    simpl; rewrite ?Hcode, ?Hpin; simpl; rewrite ?Hcode; simpl; done.
Qed.

Lemma happen_posted h k mode code :
  In (mode, code) (posted (happen arm_buttons h k).2) → code ≠ "".
Proof.
  destruct h as [key | b h | b | open | n |]; simpl.
  - unfold handleKeyPress. destruct k. by_cases; intros [? | ?]; by_cases;
      apply String.eqb_neq; by_cases; by apply negb_true_iff.
  - unfold handleArmButtonPress, requestArmWithMode, full_code.
    destruct b, k; by_cases; intros [? | ?]; by_cases;
      apply String.eqb_neq; by_cases; by apply negb_true_iff.
  - unfold armButtonTimeout. destruct b, k; by_cases.
  - unfold updateArmButtonsForOpenSensors. by_cases.
  - unfold notified, updateAlarmState, updateArmButtonsState.
    destruct n; by_cases.
  - unfold disconnected, updateAlarmState, updateArmButtonsState. by_cases.
Qed.

(** X16.  The page never sends an empty code.  Whatever happens on it,
    every request it makes carries a code that is not empty, so the route
    never refuses one for a missing code: posted to the server, it
    publishes [{command: mode, code}] and waits as a pending command. *)
Theorem page_requests_carry_a_code
    (hs : list happening) (k : keypad) (mode code : string) (s : server) :
  In (mode, code) (posted (happenings arm_buttons hs k).2) →
  code ≠ ""
  ∧ post (Some mode) (Some code) false s
    = Server (alarmState s) (sockets s)
        (requests s ++ [Request (Some mode) (Some code) false Waiting true []])
        (published s
         ++ [("alarmo/command",
              JObj [("command", JStr mode); ("code", JStr code)])])
        (delivered s).
Proof.
  intros Hin.
  assert (code ≠ "") as Hcode.
  { revert k Hin. induction hs as [|h hs IH]; intros k Hin; [done|].
    simpl in Hin. pose proof (happen_posted h k mode code) as Hh.
    destruct (happen arm_buttons h k) as [k1 calls1].
    specialize (IH k1).
    destruct (happenings arm_buttons hs k1) as [k2 calls2].
    simpl in *. rewrite posted_app in Hin.
    apply in_app_or in Hin as [Hin | Hin]; auto. }
  split; [done|]. apply String.eqb_neq in Hcode.
  by rewrite post_accepted.
Qed.

Lemma notified_state topic state now k :
  let k' := (notified arm_buttons (alarmStateChanged topic state now) k).1 in
  initialStateLoaded k' = true ∧ currentAlarmState k' = Some state.
Proof.
  unfold notified, updateAlarmState, updateArmButtonsState.
  destruct k. by_cases.
Qed.

Lemma disconnected_state k :
  let k' := (disconnected arm_buttons k).1 in
  initialStateLoaded k' = initialStateLoaded k
  ∧ currentAlarmState k' = currentAlarmState k
  ∧ state_sounds (disconnected arm_buttons k).2 = [].
Proof.
  unfold disconnected, updateAlarmState, updateArmButtonsState.
  destruct k. by_cases.
Qed.

Lemma notified_sound topic state now k :
  state_sounds (notified arm_buttons (alarmStateChanged topic state now) k).2
  = if initialStateLoaded k
       && match currentAlarmState k with
          | Some current => negb (String.eqb current state)
          | None => true
          end
    then [state] else [].
Proof.
  unfold notified, updateAlarmState, updateArmButtonsState.
  destruct k. by_cases.
Qed.

Lemma state_sounds_app calls1 calls2 :
  state_sounds (calls1 ++ calls2) = state_sounds calls1 ++ state_sounds calls2.
Proof. apply omap_app. Qed.

Lemma sounds_once_loaded items k previous :
  initialStateLoaded k = true → currentAlarmState k = Some previous →
  state_sounds (happenings arm_buttons (map connection_event items) k).2
  = changes previous (omap id items).
Proof.
  revert k previous.
  induction items as [|[state|] items IH]; intros k previous Hl Hc; [done| |].
  - cbn [map happenings connection_event happen].
    pose proof (notified_state "alarmo/state" state noon k) as [Hl' Hc'].
    pose proof (notified_sound "alarmo/state" state noon k) as Hsound.
    destruct (notified arm_buttons _ k) as [k1 calls1].
    specialize (IH k1 state Hl' Hc').
    destruct (happenings arm_buttons _ k1) as [k2 calls2].
    cbn [fst snd] in *. rewrite state_sounds_app, Hsound, IH, Hl, Hc.
    simpl. by destruct (String.eqb previous state).
  - cbn [map happenings connection_event happen].
    pose proof (disconnected_state k) as (Hl' & Hc' & Hsound).
    destruct (disconnected arm_buttons k) as [k1 calls1].
    cbn [fst snd] in *. rewrite Hl in Hl'. rewrite Hc in Hc'.
    specialize (IH k1 previous Hl' Hc').
    destruct (happenings arm_buttons _ k1) as [k2 calls2].
    cbn [fst snd] in *. by rewrite state_sounds_app, Hsound, IH.
Qed.

(** X17.  The page calls [playAlarmStateSound] only when the state
    changes.  From the loaded page, over any series of state notifications
    and disconnections, the first notification is silent and each later
    one makes the call, with its state, exactly when that state differs
    from the state of the notification before it.  A disconnection does not
    count: the state replayed to a client that connects again is silent if
    it did not change meanwhile. *)
Theorem state_sound_only_on_change (items : list (option string)) :
  state_sounds
    (happenings arm_buttons (map connection_event items)
       (loaded_page arm_buttons)).2
  = match omap id items with
    | [] => []
    | first :: rest => changes first rest
    end.
Proof.
  assert (∀ k, initialStateLoaded k = false →
               state_sounds
                 (happenings arm_buttons (map connection_event items) k).2
               = match omap id items with
                 | [] => []
                 | first :: rest => changes first rest
                 end) as Hfresh.
  { induction items as [|[state|] items IH]; intros k Hl; [done| |].
    - cbn [map happenings connection_event happen].
      pose proof (notified_state "alarmo/state" state noon k) as [Hl' Hc'].
      pose proof (notified_sound "alarmo/state" state noon k) as Hsound.
      destruct (notified arm_buttons _ k) as [k1 calls1] eqn:Hn.
      pose proof (sounds_once_loaded items k1 state Hl' Hc') as Hrest.
      destruct (happenings arm_buttons _ k1) as [k2 calls2].
      cbn [fst snd] in *. by rewrite state_sounds_app, Hsound, Hrest, Hl.
    - cbn [map happenings connection_event happen].
      pose proof (disconnected_state k) as (Hl' & _ & Hsound).
      destruct (disconnected arm_buttons k) as [k1 calls1].
      cbn [fst snd] in *. rewrite Hl in Hl'. specialize (IH k1 Hl').
      destruct (happenings arm_buttons _ k1) as [k2 calls2].
      cbn [fst snd] in *. by rewrite state_sounds_app, Hsound, IH. }
  apply Hfresh. unfold loaded_page, updateArmButtonsState.
  by destruct arm_buttons.
Qed.

Lemma notified_clears n k :
  (∀ topic now, n ≠ alarmStateChanged topic "disarmed" now) →
  let '(k', calls) := notified arm_buttons n k in
  pendingArmMode k' = None ∧ currentCode k' = currentCode k
  ∧ pinLength k' = pinLength k ∧ posted calls = [].
Proof.
  intros Hn. destruct n as [topic state now | mode | error message].
  - assert (String.eqb state "disarmed" = false) as Hstate.
    { apply String.eqb_neq. intros ->. by apply (Hn topic now). }
    unfold notified, updateAlarmState, updateArmButtonsState.
    rewrite Hstate. destruct k. by_cases.
  - by destruct k.
  - by destruct k.
Qed.

(** X18.  A failure told by the server cancels the arming the page was
    waiting to do.  After an arm button was touched without a code, a
    timeout or an error broadcast by the server, or a state notification
    other than [disarmed], forgets the mode: the code typed next and
    [enter] send one request, and it is a [disarm] request. *)
Theorem failure_notice_cancels_pending_arm
    (b : arm_button) (n : notification) (keys : list string) (k : keypad) :
  pinLength k < 4 →
  forallb ordinary keys = true → join (take 4 keys) ≠ "" →
  (∀ topic now, n ≠ alarmStateChanged topic "disarmed" now) →
  posted (happenings arm_buttons
            (ArmButton b false :: Notified n :: map Key keys ++ [Key "enter"])
            k).2
  = [("disarm", join (take 4 keys))].
Proof.
  intros Hpin Hkeys Hcode Hn.
  cbn [happenings happen].
  rewrite arm_button_without_code
    by (apply andb_false_iff; right; by apply Nat.leb_gt).
  set (k1 := set_code "" 0 _).
  pose proof (notified_clears n k1 Hn) as Hcleared.
  destruct (notified arm_buttons n k1) as [k2 calls2].
  destruct Hcleared as (Hpending & Hcode2 & Hpin2 & Hposted2).
  rewrite happenings_app.
  destruct (keys_typed keys k2 Hkeys) as [Hk Hposted];
    [rewrite Hpin2; subst k1; simpl; lia|].
  destruct (happenings arm_buttons (map Key keys) k2) as [k3 calls3].
  cbn [fst snd] in Hk, Hposted.
  cbn [happenings happen].
  assert (currentCode k3 = join (take 4 keys)) as Hcode3.
  { subst k3. simpl. rewrite Hcode2, Hpin2. subst k1. simpl.
    by rewrite Nat.sub_0_r. }
  assert (pendingArmMode k3 = None) as Hpending3 by (by subst k3).
  pose proof (enter_without_pending_mode k3) as Henter.
  rewrite Hcode3 in Henter. specialize (Henter Hcode Hpending3).
  destruct (handleKeyPress "enter" k3) as [k4 calls4].
  cbn [fst snd] in *.
  rewrite !posted_app, Hposted2, Hposted, Henter. done.
Qed.

End PageFacts.

(** ** Replies on the page *)

Lemma coherent_cases status body :
  coherent (status, body) = true →
  status = 200 ∧ success body = true
  ∨ Page.ok status = false ∧ success body = false
    ∧ ∃ m, message body = Some m ∧ m ≠ "".
Proof.
  unfold coherent. destruct (Nat.eqb_spec status 200) as [-> | Hne].
  - intros H. apply andb_true_iff in H as [H _]. by left.
  - intros H. right.
    apply andb_true_iff in H as [H Hmessage].
    apply andb_true_iff in H as [Hstatus Hsuccess].
    apply negb_true_iff in Hsuccess. split; [|split; [done|]].
    + repeat (apply orb_true_iff in Hstatus as [Hstatus | Hstatus]);
        apply Nat.eqb_eq in Hstatus; by subst.
    + destruct (message body) as [m|]; [|done]. exists m. split; [done|].
      destruct (state body); [done|].
      apply negb_true_iff in Hmessage. by apply String.eqb_neq.
Qed.

(** X19.  What the route answers is what the page shows.  For every
    response the server has written, since it started, the page that
    receives it shows the success notification when the response is a
    success; otherwise it sounds the error, shows the message of the
    response as it is, which is never empty, and sets the status line back
    to ['System Ready'].  The defaults of the page for a missing message
    are never used, and its branch for an ok response without [success] is
    never taken. *)
Theorem replies_are_shown_as_sent
    (JSON_parse : string → option json) (inputs : list input)
    (i : nat) (r : request) (status : nat) (body : reply)
    (failed unreachable succeeded : string) :
  requests (run JSON_parse initial inputs) !! i = Some r →
  In (status, body) (sent r) →
  let shown :=
    Page.settled_request failed unreachable succeeded
      (Page.Responded status body) in
  success body = true
  ∧ shown = [Page.playHapticFeedback "success";
             Page.showNotification succeeded "success" 3000]
  ∨ success body = false
    ∧ ∃ m, message body = Some m ∧ m ≠ ""
           ∧ shown = [Page.playHapticFeedback "error"; Page.playSound "error";
                      Page.showNotification m "error" 3000;
                      Page.statusDetail "System Ready"].
Proof.
  intros Hi Hin.
  assert (coherent (status, body) = true) as Hcoherent.
  { assert (closures_coherent (run JSON_parse initial inputs)) as Hall
      by (apply run_coherent; constructor).
    pose proof (Forall_lookup_1 _ _ _ _ Hall Hi) as Hr.
    unfold all_coherent in Hr. rewrite List.Forall_forall in Hr.
    by apply Hr. }
  destruct (coherent_cases status body Hcoherent)
    as [[-> Hsuccess] | (Hok & Hsuccess & m & Hm & Hne)]; simpl.
  - left. by rewrite Hsuccess.
  - right. split; [done|]. exists m. split; [done|]. split; [done|].
    unfold Page.settled_request. rewrite Hok, Hm.
    apply String.eqb_neq in Hne.
    unfold Page.caught, Page.or_else, falsy. rewrite Hne. simpl.
    by rewrite Hne.
Qed.

(** ** The further theorems at concrete inputs *)

Example replace_first_examples :
  map (Page.replace_first "arm_" "")
    ["arm_home"; "arm_away"; "disarm"; "arm_arm_x"; ""]
  = ["home"; "away"; "disarm"; "arm_x"; ""].
Proof. reflexivity. Qed.

Example js_length_examples :
  map Page.js_length ["4711"; ""; "héllo"; "😀"] = [4; 0; 5; 2].
Proof. reflexivity. Qed.

Example armed_notification :
  Page.armSystem_settled "arm_home"
    (Page.Responded 200
       (Reply true None (Some (JStr "ARM_HOME")) (Some "armed_home")))
  = [Page.playHapticFeedback "success";
     Page.showNotification "System successfully armed in home mode"
       "success" 3000].
Proof. reflexivity. Qed.

Example getStates_example :
  match getStates (Some (JArr [JStr "binary_sensor.hall_motion";
                               JStr "binary_sensor.garage";
                               JStr "binary_sensor.front_door";
                               JNum "7";
                               JStr "binary_sensor.front_door"])) with
  | Await k =>
      k (Fetched inventory)
      = (200, Entities [front_door; hall_motion],
         [JStr "binary_sensor.garage"; JNum "7"])
  | Answer _ => False
  end.
Proof. reflexivity. Qed.

(** X4 at two servers that share one waiting command, the second with
    another command and a client beside it. *)
Lemma commands_do_not_interfere_witness :
  ∃ r',
    requests (run parse_json (one_pending "arm_home")
                [Message "alarmo/event" (event_payload "ARM_HOME") noon;
                 Elapse 1]) !! 0 = Some r'
    ∧ requests (run parse_json
                  (run parse_json (one_pending "arm_home")
                     [Connection 3 noon;
                      Post (Some "arm_away") (Some "9999") false])
                  [Message "alarmo/event" (event_payload "ARM_HOME") noon;
                   Elapse 1]) !! 0 = Some r'.
Proof.
  apply (commands_do_not_interfere parse_json
           [Message "alarmo/event" (event_payload "ARM_HOME") noon; Elapse 1]
           (one_pending "arm_home")
           (run parse_json (one_pending "arm_home")
              [Connection 3 noon; Post (Some "arm_away") (Some "9999") false])
           0 (waiting_command "arm_home")).
  - reflexivity.
  - reflexivity.
Defined.

(** X5 at a waiting [arm_home] command with one client connected. *)
Lemma deadline_of_a_pending_command_witness :
  step parse_json (watched_pending "arm_home") (Elapse 0)
  = Server None [7]
      [Request (Some "arm_home") (Some "1234") true Elapsed false
         [(504, Reply false (Some "Timeout waiting for alarm system response")
                  (Some (JStr "TIMEOUT")) None)]]
      [("alarmo/command",
        JObj [("command", JStr "arm_home"); ("code", JStr "1234")])]
      [(7, alarmUpdateTimeout (Some "arm_home"))].
Proof.
  apply (deadline_of_a_pending_command parse_json
           (watched_pending "arm_home") 0 (waiting_command "arm_home")).
  - reflexivity.
  - repeat split; reflexivity.
Defined.

(** X6 at ["disarmed"] on the state topic of a zone. *)
Lemma other_topics_settle_nothing_witness :
  isStateTopic "alarmo/zone1/state" = true
  ∧ requests (step parse_json (watched_pending "disarm")
                (Message "alarmo/zone1/state" "disarmed" later))
    = [waiting_command "disarm"]
  ∧ alarmState (step parse_json (watched_pending "disarm")
                  (Message "alarmo/zone1/state" "disarmed" later))
    = Some "disarmed".
Proof.
  split; [reflexivity|]. split; [|reflexivity].
  apply (other_topics_settle_nothing parse_json (watched_pending "disarm")
           "alarmo/zone1/state" "disarmed" later); discriminate.
Defined.

(** X7 at the response of a rejected command. *)
Lemma every_response_is_coherent_witness :
  coherent (400, Reply false (Some "Invalid security code provided.")
                   (Some (JStr "INVALID_CODE_PROVIDED")) None) = true.
Proof.
  apply (every_response_is_coherent parse_json
           [Post (Some "arm_away") (Some "0000") false;
            Message "alarmo/event" (event_payload "INVALID_CODE_PROVIDED")
              noon]
           0
           (Request (Some "arm_away") (Some "0000") true Canceled false
              [(400, Reply false (Some "Invalid security code provided.")
                       (Some (JStr "INVALID_CODE_PROVIDED")) None)])).
  - vm_compute. reflexivity.
  - left. reflexivity.
Defined.

(** X8 at a text that is no JSON, with one client and one command. *)
Lemma unreadable_reply_fails_waiting_commands_witness :
  step parse_json (watched_pending "arm_home")
    (Message "alarmo/event" "ARM_HOME" later)
  = Server None [7]
      [Request (Some "arm_home") (Some "1234") true Canceled false
         [parse_failure]]
      [("alarmo/command",
        JObj [("command", JStr "arm_home"); ("code", JStr "1234")])]
      [(7, parse_failure_note)].
Proof.
  apply (unreadable_reply_fails_waiting_commands parse_json
           (watched_pending "arm_home") "ARM_HOME" later).
  left. reflexivity.
Defined.

(** X11 as shipped, with a sort that finds its list in order: of a door
    sensor and an entity whose id starts with [undefined], only the second
    is listed. *)
Lemma listSensors_keeps_ids_with_the_prefix_witness :
  Permutation
    (List.filter
       (fun e => String.prefix (to_string config_sensorFilter) (entity_id e))
       [front_door; Entity "undefined.sensor" "on" []])
    [Entity "undefined.sensor" "on" []]
  ∧ (∀ e, In e [Entity "undefined.sensor" "on" []] →
          String.prefix "undefined" (entity_id e) = true).
Proof.
  destruct (listSensors_keeps_ids_with_the_prefix Some config_sensorFilter
              [front_door; Entity "undefined.sensor" "on" []]
              [Entity "undefined.sensor" "on" []])
    as (k & Hk & Hkept).
  - by intros l l' [= ->].
  - injection Hk as <-.
    destruct (Hkept eq_refl) as [Hperm Hshipped].
    split; [exact Hperm | exact (Hshipped eq_refl)].
Defined.

(** X13 at six digits typed on a fresh page. *)
Lemma typed_code_is_the_first_four_keys_witness :
  let '(k', calls) :=
    Page.happenings true (map Page.Key ["4"; "7"; "1"; "1"; "9"; "9"])
      fresh_page in
  Page.currentCode k' = "4711" ∧ Page.pinLength k' = 4
  ∧ Page.posted calls = [].
Proof.
  exact (typed_code_is_the_first_four_keys true
           ["4"; "7"; "1"; "1"; "9"; "9"] fresh_page eq_refl eq_refl eq_refl).
Defined.

(** X14 at the away button, four digits and [enter]. *)
Lemma arm_button_then_code_then_enter_witness :
  Page.posted
    (Page.happenings true
       [Page.ArmButton Page.arm_away false; Page.Key "4"; Page.Key "7";
        Page.Key "1"; Page.Key "1"; Page.Key "enter"]
       fresh_page).2
  = [("arm_away", "4711")].
Proof.
  apply (arm_button_then_code_then_enter true Page.arm_away ["4"; "7"; "1"; "1"]
           fresh_page).
  - simpl. lia.
  - reflexivity.
  - discriminate.
Defined.

(** X15 at the home button on a page with four digits typed. *)
Lemma open_sensors_need_a_second_press_witness :
  Page.posted
    (Page.happenings true [Page.ArmButton Page.arm_home true] typed_page).2 = []
  ∧ Page.posted
      (Page.happenings true
         [Page.ArmButton Page.arm_home true; Page.ArmButton Page.arm_home true]
         typed_page).2
    = [("arm_home", "4711")]
  ∧ Page.posted
      (Page.happenings true
         [Page.ArmButton Page.arm_home true; Page.ArmButtonTimeout Page.arm_home;
          Page.ArmButton Page.arm_home true]
         typed_page).2
    = [].
Proof.
  pose proof (open_sensors_need_a_second_press true Page.arm_home typed_page
                eq_refl) as H.
  destruct (Page.happenings true [Page.ArmButton Page.arm_home true] typed_page)
    as [k1 calls1] eqn:Hfirst.
  destruct H as (Hnone & _ & _ & Hsecond & Hlate).
  - discriminate.
  - vm_compute. lia.
  - split; [exact Hnone|]. split; [exact Hsecond | exact Hlate].
Defined.

(** X16 at a code typed and entered on a fresh page: the request is a
    [disarm], and the server takes it as a pending command. *)
Lemma page_requests_carry_a_code_witness :
  In ("disarm", "4711")
    (Page.posted (Page.happenings true [Page.Key "enter"] typed_page).2)
  ∧ post (Some "disarm") (Some "4711") false initial
    = Server None []
        [Request (Some "disarm") (Some "4711") false Waiting true []]
        [("alarmo/command",
          JObj [("command", JStr "disarm"); ("code", JStr "4711")])]
        [].
Proof.
  split; [left; reflexivity|].
  apply (page_requests_carry_a_code true [Page.Key "enter"] typed_page
           "disarm" "4711" initial).
  left. reflexivity.
Defined.

(** X18 at a timeout broadcast for the command of another page. *)
Lemma failure_notice_cancels_pending_arm_witness :
  Page.posted
    (Page.happenings true
       [Page.ArmButton Page.arm_away false;
        Page.Notified (alarmUpdateTimeout (Some "arm_home"));
        Page.Key "4"; Page.Key "7"; Page.Key "1"; Page.Key "1";
        Page.Key "enter"]
       fresh_page).2
  = [("disarm", "4711")].
Proof.
  apply (failure_notice_cancels_pending_arm true Page.arm_away
           (alarmUpdateTimeout (Some "arm_home")) ["4"; "7"; "1"; "1"]
           fresh_page).
  - simpl. lia.
  - reflexivity.
  - discriminate.
  - discriminate.
Defined.

(** X19 at the response to a wrong code, as [armSystem] shows it. *)
Lemma replies_are_shown_as_sent_witness :
  Page.armSystem_settled "arm_away"
    (Page.Responded 400
       (Reply false (Some "Invalid security code provided.")
          (Some (JStr "INVALID_CODE_PROVIDED")) None))
  = [Page.playHapticFeedback "error"; Page.playSound "error";
     Page.showNotification "Invalid security code provided." "error" 3000;
     Page.statusDetail "System Ready"].
Proof.
  destruct (replies_are_shown_as_sent parse_json
              [Post (Some "arm_away") (Some "0000") false;
               Message "alarmo/event" (event_payload "INVALID_CODE_PROVIDED")
                 noon]
              0
              (Request (Some "arm_away") (Some "0000") true Canceled false
                 [(400, Reply false (Some "Invalid security code provided.")
                          (Some (JStr "INVALID_CODE_PROVIDED")) None)])
              400
              (Reply false (Some "Invalid security code provided.")
                 (Some (JStr "INVALID_CODE_PROVIDED")) None)
              "Failed to update alarm system"
              "Failed to communicate with alarm system"
              "System successfully armed in away mode")
    as [[Hsuccess _] | (_ & m & Hm & _ & Hshown)].
  - vm_compute. reflexivity.
  - left. reflexivity.
  - discriminate Hsuccess.
  - injection Hm as <-. exact Hshown.
Defined.
